(** * Retra, the Reference Tracer: the core of the path tracer

    A shallow embedding of [src/core/triplet.cpp] and [src/core/ray.cpp].

    A C++ [double] is read as a real number ([R]): rounding, infinities and
    NaN are outside the model.  Pointers to scene objects are opaque handles
    compared by identity, a null pointer is [None].  The process-wide state
    of [std::rand] is an explicit generator that every drawing function
    takes and gives back. *)

From Stdlib Require Import Reals ZArith List Bool Lra Lia.
Import ListNotations.

Open Scope R_scope.

(** ** Comparisons of doubles, as booleans *)

Definition Rltb (a b : R) : bool := if Rlt_dec a b then true else false.
Definition Rleb (a b : R) : bool := if Rle_dec a b then true else false.
Definition Reqb (a b : R) : bool := if Req_dec_T a b then true else false.

(** ** Triplets ([triplet.h], [triplet.cpp]) *)

Module Triplet.

Record Triplet : Type := mk { x : R; y : R; z : R }.

(** [triplet.h], which declares the operators, is not among the sources:
    they are the ones that section 4.1 of the specification lists. *)

(** Modelled from the spec: [a + b]. *)
Definition add (a b : Triplet) : Triplet := mk (x a + x b) (y a + y b) (z a + z b).

(** Modelled from the spec: [a - b]. *)
Definition sub (a b : Triplet) : Triplet := mk (x a - x b) (y a - y b) (z a - z b).

(** Modelled from the spec: [-a], as in [-Vector::UnitZ]. *)
Definition neg (a : Triplet) : Triplet := mk (- x a) (- y a) (- z a).

(** Modelled from the spec: [a * k], with a scalar [k]. *)
Definition scale (a : Triplet) (k : R) : Triplet := mk (x a * k) (y a * k) (z a * k).

(** Modelled from the spec: the component-wise [a * b] of two colours. *)
Definition tint (a b : Triplet) : Triplet := mk (x a * x b) (y a * y b) (z a * z b).

(** Modelled from the spec: the dot product, [a * b] of two vectors. *)
Definition dot (a b : Triplet) : R := x a * x b + y a * y b + z a * z b.

(** Modelled from the spec: the cross product [a.cross(b)]. *)
Definition cross (a b : Triplet) : Triplet :=
  mk (y a * z b - z a * y b) (z a * x b - x a * z b) (x a * y b - y a * x b).

(** Modelled from the spec: the length of a vector. *)
Definition length (a : Triplet) : R := sqrt (dot a a).

(** Modelled from the spec: [a.normalize()], [a] over its length. *)
Definition normalize (a : Triplet) : Triplet := scale a (/ length a).

(** Modelled from the spec: [a == b], exact comparison of the doubles. *)
Definition eqb (a b : Triplet) : bool :=
  Reqb (x a) (x b) && Reqb (y a) (y b) && Reqb (z a) (z b).

End Triplet.

Definition Triplet : Type := Triplet.Triplet.
Definition Vector : Type := Triplet.Triplet.
Definition RGB : Type := Triplet.Triplet.

Declare Scope triplet_scope.
Delimit Scope triplet_scope with T.
Bind Scope triplet_scope with Triplet.Triplet.
Infix "+" := Triplet.add : triplet_scope.
Infix "-" := Triplet.sub : triplet_scope.
Infix "*" := Triplet.scale : triplet_scope.

(** The constants at the end of [triplet.cpp]. *)
Definition Black : RGB := Triplet.mk 0 0 0.
Definition White : RGB := Triplet.mk 1 1 1.
Definition UnitX : Vector := Triplet.mk 1 0 0.
Definition UnitY : Vector := Triplet.mk 0 1 0.
Definition UnitZ : Vector := Triplet.mk 0 0 1.

(** ** Helpers of [aux.h] *)

Module Aux.

(** Modelled from the spec: [aux.h] is not among the sources; [max] is the
    larger of two doubles (section 4.4: [m = max(color.x, color.y,
    color.z)]). *)
Definition max (a b : R) : R := Rmax a b.

(** Modelled from the spec: [aux.h] is not among the sources; [abs] is the
    absolute value of a double (section 4.4: [cos theta1 = |direction.N|]). *)
Definition abs (a : R) : R := Rabs a.

End Aux.

(** ** [Ray::schlick] *)

Definition schlick (n1 n2 cosTheta : R) : R :=
  let R0 := (n1 - n2) * (n1 - n2) / ((n1 + n2) * (n1 + n2)) in
  R0 + (1 - R0) * (1 - cosTheta) ^ 5.

(** ** Opaque collaborators

    [ray.h], [scene.h], [aux.h] and the surface classes are not among the
    sources.  What [ray.cpp] uses of them is taken as a parameter. *)

Inductive Material : Type := DIFFUSE | METALLIC | REFLECT | REFRACT.

(** Handles: a [const Thing*] and the like, compared by identity, and the
    hidden state of [std::rand]. *)
Class Handles : Type := {
  Thing : Type;
  ThingPart : Type;
  Light : Type;
  LightPart : Type;
  Thing_eq_dec : forall a b : Thing, {a = b} + {a <> b};
  Rand : Type
}.

(** The fields of a [Ray] that [ray.cpp] reads and writes ([ray.h] is not
    among the sources).  [depth] is a signed integer, as the tests
    [depth < 0] and [assert( 0 <= depth )] have it; it is decremented only
    when it is not negative, so it never wraps around.  [insideThings] is a
    [std::stack]: the head of the list is its top. *)
Record Ray `{Handles} : Type := mkRay {
  origin : Vector;
  direction : Vector;
  color : RGB;
  depth : Z;
  insideThings : list Thing;
  lightHit : option Light;
  lightPartHit : option LightPart;
  thingHit : option Thing;
  thingPartHit : option ThingPart
}.

(** The scene the ray points to, the methods of its surfaces, and the
    constants [RAND_MAX] (from [cstdlib]), [INF] (from [aux.h]) and
    [rrLimit]. *)
Class Scene `{Handles} : Type := {
  things : list Thing;
  lights : list Light;
  sky : RGB;
  getDirectLight : Vector -> Vector -> Rand -> RGB * Rand;
  thingIsBackground : Thing -> bool;
  thingParts : Thing -> list ThingPart;
  getColor : Thing -> RGB;
  getRefractiveIndex : Thing -> R;
  interact : Thing -> Rand -> Material * Rand;
  thingIntersect : ThingPart -> Ray -> R;
  getNormal : ThingPart -> Vector -> Vector;
  lightIsBackground : Light -> bool;
  lightParts : Light -> list LightPart;
  getEmission : Light -> RGB;
  lightIntersect : LightPart -> Ray -> R;
  rand : Rand -> Z * Rand;
  RAND_MAX : Z;
  INF : R;
  rrLimit : R
}.

(** What a call ends in: a value, a null dereference or failed [assert]
    ([Fault]), or a budget of the model used up: [OutOfCalls] when [trace]
    would recurse deeper than allowed, [OutOfSpins] when the rejection loop
    of [Vector::random] has not accepted a sample. *)
Inductive Result (A : Type) : Type :=
| Done (a : A)
| Fault
| OutOfCalls
| OutOfSpins.

Arguments Done {A} a.
Arguments Fault {A}.
Arguments OutOfCalls {A}.
Arguments OutOfSpins {A}.

Definition bind {A B : Type} (m : Result A) (k : A -> Result B) : Result B :=
  match m with
  | Done a => k a
  | Fault => Fault
  | OutOfCalls => OutOfCalls
  | OutOfSpins => OutOfSpins
  end.

Notation "' p <- m ;; k" := (bind m (fun p => k))
  (at level 61, p pattern, m at next level, right associativity).

Definition deref {A : Type} (p : option A) : Result A :=
  match p with
  | Some a => Done a
  | None => Fault
  end.

Section Model.

Context {H : Handles} {SC : Scene}.

(** ** Field updates of the ray *)

Definition setOrigin (o : Vector) (r : Ray) : Ray :=
  mkRay _ o (direction r) (color r) (depth r) (insideThings r)
        (lightHit r) (lightPartHit r) (thingHit r) (thingPartHit r).
Definition setDirection (d : Vector) (r : Ray) : Ray :=
  mkRay _ (origin r) d (color r) (depth r) (insideThings r)
        (lightHit r) (lightPartHit r) (thingHit r) (thingPartHit r).
Definition setColor (c : RGB) (r : Ray) : Ray :=
  mkRay _ (origin r) (direction r) c (depth r) (insideThings r)
        (lightHit r) (lightPartHit r) (thingHit r) (thingPartHit r).
Definition setDepth (d : Z) (r : Ray) : Ray :=
  mkRay _ (origin r) (direction r) (color r) d (insideThings r)
        (lightHit r) (lightPartHit r) (thingHit r) (thingPartHit r).
Definition setInsideThings (s : list Thing) (r : Ray) : Ray :=
  mkRay _ (origin r) (direction r) (color r) (depth r) s
        (lightHit r) (lightPartHit r) (thingHit r) (thingPartHit r).
Definition setLightHit (l : option Light) (p : option LightPart) (r : Ray) : Ray :=
  mkRay _ (origin r) (direction r) (color r) (depth r) (insideThings r)
        l p (thingHit r) (thingPartHit r).
Definition setThingHit (t : option Thing) (p : option ThingPart) (r : Ray) : Ray :=
  mkRay _ (origin r) (direction r) (color r) (depth r) (insideThings r)
        (lightHit r) (lightPartHit r) t p.

(** Modelled from the spec: [paint] of [ray.h], which is not among the
    sources, multiplies the throughput by a colour, component by component. *)
Definition paint (c : RGB) (r : Ray) : Ray := setColor (Triplet.tint (color r) c) r.

(** Modelled from the spec: [ray[t]] of [ray.h], which is not among the
    sources, is the point [origin + t * direction]. *)
Definition pointAt (r : Ray) (t : R) : Vector := (origin r + direction r * t)%T.

(** ** [Vector::random] *)

(** One turn of the [do ... while] body: three draws. *)
Definition drawSample (g : Rand) : R * R * R * Rand :=
  let (a, g1) := rand g in
  let x := IZR a / IZR RAND_MAX * 2 - 1 in
  let (b, g2) := rand g1 in
  let y := IZR b / IZR RAND_MAX * 2 - 1 in
  let (c, g3) := rand g2 in
  let z := IZR c / IZR RAND_MAX in
  (x, y, z, g3).

(** The loop condition: the sample is thrown away. *)
Definition rejected (x y z : R) : bool :=
  Rltb 1 (x * x + y * y + z * z) || (Reqb x 0 && Reqb y 0 && Reqb z 0).

(** The rejection loop, run for at most [spins] turns. *)
Fixpoint sampleLoop (spins : nat) (g : Rand) : option (R * R * R * Rand) :=
  match spins with
  | O => None
  | S spins' =>
      let '(x, y, z, g') := drawSample g in
      if rejected x y z then sampleLoop spins' g' else Some (x, y, z, g')
  end.

(** The tangential frame and the result, once a sample is accepted. *)
Definition orient (normal : Vector) (x y z : R) : Vector :=
  let (tangentialX, tangentialY) :=
    if Triplet.eqb UnitZ normal || Triplet.eqb (Triplet.neg UnitZ) normal
    then (UnitX, UnitY)
    else
      let tX := Triplet.normalize (Triplet.cross normal UnitZ) in
      (tX, Triplet.normalize (Triplet.cross normal tX)) in
  Triplet.normalize (tangentialX * x + tangentialY * y + normal * z)%T.

Definition random (spins : nat) (normal : Vector) (g : Rand) : option (Vector * Rand) :=
  match sampleLoop spins g with
  | None => None
  | Some (x, y, z, g') => Some (orient normal x y z, g')
  end.

(** ** [Ray::russianRoulette] *)

(** The local [maxColor]. *)
Definition maxColor (r : Ray) : R :=
  Aux.max (Triplet.x (color r)) (Aux.max (Triplet.y (color r)) (Triplet.z (color r))).

Definition russianRoulette (r : Ray) (g : Rand) : bool * Ray * Rand :=
  if Rleb rrLimit (maxColor r) then (false, r, g)
  else
    let (n, g') := rand g in
    if Rltb (maxColor r) (IZR n * rrLimit / IZR RAND_MAX) then (true, r, g')
    else (false, setColor (color r * (rrLimit / maxColor r))%T r, g').

(** ** [Ray::traceToNextIntersection] *)

(** The test of the four loops: [t], the value of [intersect], is not zero
    and [t < nearestT]. *)
Definition nearer (t nearestT : R) : bool := negb (Reqb t 0) && Rltb t nearestT.

(** The loop over the parts of one surface; [found] is the body of the
    [if].  The state is the ray and [nearestT]. *)
Fixpoint scanParts {P : Type} (intersect : P -> Ray -> R) (found : P -> Ray -> Ray)
         (parts : list P) (st : Ray * R) : Ray * R :=
  match parts with
  | [] => st
  | part :: rest =>
      let t := intersect part (fst st) in
      scanParts intersect found rest
                (if nearer t (snd st) then (found part (fst st), t) else st)
  end.

(** The loop over the surfaces of one kind that are, or are not, in the
    background. *)
Fixpoint scanSurfaces {S P : Type} (background : bool) (isBackground : S -> bool)
         (parts : S -> list P) (intersect : P -> Ray -> R)
         (found : S -> P -> Ray -> Ray) (surfaces : list S) (st : Ray * R) : Ray * R :=
  match surfaces with
  | [] => st
  | s :: rest =>
      scanSurfaces background isBackground parts intersect found rest
                   (if Bool.eqb (isBackground s) background
                    then scanParts intersect (found s) (parts s) st
                    else st)
  end.

(** The four [if] bodies. *)
Definition foundThing (thing : Thing) (part : ThingPart) (r : Ray) : Ray :=
  setThingHit (Some thing) (Some part) r.
Definition foundLight (light : Light) (part : LightPart) (r : Ray) : Ray :=
  setThingHit None None (setLightHit (Some light) (Some part) r).
Definition foundBackgroundThing (thing : Thing) (part : ThingPart) (r : Ray) : Ray :=
  setThingHit (Some thing) (Some part) (setLightHit None None r).

Definition clearHits (r : Ray) : Ray := setThingHit None None (setLightHit None None r).

Definition foregroundPass (st : Ray * R) : Ray * R :=
  scanSurfaces false lightIsBackground lightParts lightIntersect foundLight lights
    (scanSurfaces false thingIsBackground thingParts thingIntersect foundThing things st).

Definition backgroundPass (st : Ray * R) : Ray * R :=
  scanSurfaces true lightIsBackground lightParts lightIntersect foundLight lights
    (scanSurfaces true thingIsBackground thingParts thingIntersect foundBackgroundThing
                  things st).

Definition isHit (r : Ray) : bool :=
  match thingHit r, lightHit r with
  | None, None => false
  | _, _ => true
  end.

Definition advance (st : Ray * R) : Ray := setOrigin (pointAt (fst st) (snd st)) (fst st).

Definition traceToNextIntersection (r : Ray) : Result Ray :=
  if (depth r <? 0)%Z then Fault
  else
    let st := foregroundPass (clearHits r, INF) in
    if isHit (fst st) then Done (advance st)
    else Done (advance (backgroundPass st)).

(** ** The bounces *)

(** The result of [trace] and of the bounces: the colour returned, and the
    ray and the generator as the call leaves them. *)
Definition Tracer : Type := Ray -> Rand -> Result (RGB * Ray * Rand).

(** [into], [n1] and [n2], as [bounceMetallic] and [bounceRefract] both
    compute them.  The [pop] and [push] around the probe of [n2] leave the
    stack as it was. *)
Definition mediumIndices (thing : Thing) (r : Ray) : bool * R * R :=
  let into :=
    match insideThings r with
    | [] => true
    | top :: _ => if Thing_eq_dec top thing then false else true
    end in
  let n1 :=
    match insideThings r with
    | [] => 1
    | top :: _ => getRefractiveIndex top
    end in
  let n2 :=
    if into then getRefractiveIndex thing
    else
      match insideThings r with
      | _tempTop :: top :: _ => getRefractiveIndex top
      | _ => 1
      end in
  (into, n1, n2).

(** [direction -= surfaceNormal * (direction * surfaceNormal) * 2] *)
Definition reflect (surfaceNormal : Vector) (r : Ray) : Ray :=
  setDirection
    (direction r - surfaceNormal * Triplet.dot (direction r) surfaceNormal * 2)%T r.

(** The part of [bounceRefract] between the roulette and the next
    intersection: the new direction and the medium stack. *)
Definition refract (thing : Thing) (surfaceNormal : Vector) (r : Ray) : Ray :=
  let '(into, n1, n2) := mediumIndices thing r in
  let eta := n1 / n2 in
  let cosTheta1 := Aux.abs (Triplet.dot (direction r) surfaceNormal) in
  let sinTheta2Squared := eta * eta * (1 - cosTheta1 * cosTheta1) in
  if Rltb 1 sinTheta2Squared then
    setDirection
      (direction r + surfaceNormal * Triplet.dot (direction r) surfaceNormal * 2)%T r
  else
    let cosTheta2 := sqrt (1 - sinTheta2Squared) in
    let r' :=
      setDirection
        (direction r * eta
         + surfaceNormal * (eta * cosTheta1 - cosTheta2)
           * (if Rltb (Triplet.dot (direction r) surfaceNormal) 0 then 1 else -1))%T r in
    if into then setInsideThings (thing :: insideThings r') r'
    else setInsideThings (tl (insideThings r')) r'.

Definition bounceDiffuse (spins : nat) (trace : Tracer) : Tracer := fun r g =>
  ' part <- deref (thingPartHit r) ;;
  let surfaceNormal := getNormal part (origin r) in
  let (directLight, g) := getDirectLight (origin r) surfaceNormal g in
  let currentColor := Triplet.tint (color r) directLight in
  if (depth r <? 1)%Z then Done (currentColor, r, g)
  else
    let '(killed, r, g) := russianRoulette r g in
    if killed then Done (currentColor, r, g)
    else
      match random spins surfaceNormal g with
      | None => OutOfSpins
      | Some (d, g) =>
          let r := setDirection d r in
          let r := paint (White * Triplet.dot (direction r) surfaceNormal)%T r in
          ' r <- traceToNextIntersection r ;;
          ' (c, r, g) <- trace r g ;;
          Done ((currentColor + c)%T, r, g)
      end.

Definition bounceMetallic (trace : Tracer) : Tracer := fun r g =>
  ' thing <- deref (thingHit r) ;;
  let '(_, n1, n2) := mediumIndices thing r in
  ' part <- deref (thingPartHit r) ;;
  let surfaceNormal := getNormal part (origin r) in
  let r := reflect surfaceNormal r in
  let cosTheta := Triplet.dot (direction r) surfaceNormal in
  let r := paint (White * schlick n1 n2 cosTheta)%T r in
  if (depth r <? 1)%Z then Done (Black, r, g)
  else
    let '(killed, r, g) := russianRoulette r g in
    if killed then Done (Black, r, g)
    else
      ' r <- traceToNextIntersection r ;;
      trace r g.

Definition bounceReflect (trace : Tracer) : Tracer := fun r g =>
  if (depth r <? 1)%Z then Done (Black, r, g)
  else
    let '(killed, r, g) := russianRoulette r g in
    if killed then Done (Black, r, g)
    else
      ' part <- deref (thingPartHit r) ;;
      let surfaceNormal := getNormal part (origin r) in
      let r := reflect surfaceNormal r in
      ' r <- traceToNextIntersection r ;;
      trace r g.

Definition bounceRefract (trace : Tracer) : Tracer := fun r g =>
  if (depth r <? 1)%Z then Done (Black, r, g)
  else
    let '(killed, r, g) := russianRoulette r g in
    if killed then Done (Black, r, g)
    else
      ' thing <- deref (thingHit r) ;;
      ' part <- deref (thingPartHit r) ;;
      let surfaceNormal := getNormal part (origin r) in
      let r := refract thing surfaceNormal r in
      ' r <- traceToNextIntersection r ;;
      trace r g.

(** ** [Ray::trace] *)

(** The body of [trace]; [self] stands for the recursive calls that the
    bounces make. *)
Definition traceBody (spins : nat) (self : Tracer) : Tracer := fun r g =>
  if Triplet.eqb Black (color r) || (depth r <? 0)%Z then Done (Black, r, g)
  else
    match lightHit r with
    | Some light =>
        let r := paint (getEmission light) r in
        Done (color r, r, g)
    | None =>
        match thingHit r with
        | None =>
            let r := paint sky r in
            Done (color r, r, g)
        | Some thing =>
            let r := paint (getColor thing) r in
            let r := setDepth (depth r - 1) r in
            let (material, g) := interact thing g in
            match material with
            | DIFFUSE => bounceDiffuse spins self r g
            | METALLIC => bounceMetallic self r g
            | REFLECT => bounceReflect self r g
            | REFRACT => bounceRefract self r g
            end
        end
    end.

(** [trace spins calls]: a call of [trace] that may recurse [calls] deep;
    one more recursive call ends in [OutOfCalls]. *)
Fixpoint trace (spins calls : nat) {struct calls} : Tracer :=
  traceBody spins
    match calls with
    | O => fun _ _ => OutOfCalls
    | S calls' => trace spins calls'
    end.

End Model.

(** ** Properties the theorems speak of *)

Section Notions.

Context {H : Handles} {SC : Scene}.

(** A vector of length one. *)
Definition unitLength (v : Vector) : Prop := Triplet.length v = 1.

(** The sine of the angle between two vectors, from its cosine. *)
Definition cosBetween (u v : Vector) : R :=
  Triplet.dot u v / (Triplet.length u * Triplet.length v).
Definition sinBetween (u v : Vector) : R :=
  sqrt (1 - cosBetween u v * cosBetween u v).

(** The indices on the two sides of the surface, and the squared sine of
    the angle of refraction, as [bounceRefract] computes them. *)
Definition mediumN1 (thing : Thing) (r : Ray) : R := snd (fst (mediumIndices thing r)).
Definition mediumN2 (thing : Thing) (r : Ray) : R := snd (mediumIndices thing r).
Definition sinTheta2Squared (thing : Thing) (surfaceNormal : Vector) (r : Ray) : R :=
  let eta := mediumN1 thing r / mediumN2 thing r in
  let cosTheta1 := Aux.abs (Triplet.dot (direction r) surfaceNormal) in
  eta * eta * (1 - cosTheta1 * cosTheta1).

(** The mirror image of [d] in the plane whose normal is [n]. *)
Definition mirrored (d n : Vector) : Vector := (d - n * (2 * Triplet.dot d n))%T.

(** The sample [u] of the roulette: the next draw over [RAND_MAX]. *)
Definition uniform (g : Rand) : R := IZR (fst (rand g)) / IZR RAND_MAX.

(** [std::rand] returns a value between 0 and [RAND_MAX]. *)
Definition randInRange : Prop :=
  (0 < RAND_MAX)%Z /\ forall g, (0 <= fst (rand g) <= RAND_MAX)%Z.

(** The sample drawn in turn [n] of the rejection loop is accepted. *)
Fixpoint acceptedAt (n : nat) (g : Rand) : Prop :=
  let '(x, y, z, g') := drawSample g in
  match n with
  | O => rejected x y z = false
  | S n' => acceptedAt n' g'
  end.

(** [intersect] reads the origin and the direction of the ray only. *)
Definition geometric {P : Type} (intersect : P -> Ray -> R) : Prop :=
  forall part r1 r2,
    origin r1 = origin r2 -> direction r1 = direction r2 ->
    intersect part r1 = intersect part r2.

(** The contract of [intersect]: a positive parameter, or 0 on a miss. *)
Definition nonNegative {P : Type} (intersect : P -> Ray -> R) : Prop :=
  forall part r, 0 <= intersect part r.

(** The parts that a loop of [traceToNextIntersection] visits, with their
    surfaces, in the order of the loop. *)
Definition candidates {S P : Type} (background : bool) (isBackground : S -> bool)
           (parts : S -> list P) (surfaces : list S) : list (S * P) :=
  flat_map (fun s => if Bool.eqb (isBackground s) background
                     then map (pair s) (parts s) else []) surfaces.

Definition thingCandidates (background : bool) : list (Thing * ThingPart) :=
  candidates background thingIsBackground thingParts things.
Definition lightCandidates (background : bool) : list (Light * LightPart) :=
  candidates background lightIsBackground lightParts lights.

(** The loop of [scanParts], run over a list of candidates. *)
Fixpoint scanCandidates {S P : Type} (intersect : P -> Ray -> R)
         (found : S -> P -> Ray -> Ray) (cs : list (S * P)) (st : Ray * R) : Ray * R :=
  match cs with
  | [] => st
  | c :: rest =>
      let t := intersect (snd c) (fst st) in
      scanCandidates intersect found rest
                     (if nearer t (snd st) then (found (fst c) (snd c) (fst st), t) else st)
  end.

(** No candidate of the list has a parameter other than 0 below [t]. *)
Definition nearestAmong {C : Type} (t : R) (param : C -> R) (cs : list C) : Prop :=
  forall c, In c cs -> param c <> 0 -> t <= param c.

(** The same, strictly: every parameter other than 0 is above [t]. *)
Definition strictlyNearest {C : Type} (t : R) (param : C -> R) (cs : list C) : Prop :=
  forall c, In c cs -> param c <> 0 -> t < param c.

(** The body of the [if] in the loop over the things of a pass. *)
Definition foundIn (background : bool) : Thing -> ThingPart -> Ray -> Ray :=
  if background then foundBackgroundThing else foundThing.

(** A pass: the loop over the things, then the loop over the lights. *)
Definition passWith (foundT : Thing -> ThingPart -> Ray -> Ray) (background : bool)
           (st : Ray * R) : Ray * R :=
  scanSurfaces background lightIsBackground lightParts lightIntersect foundLight lights
    (scanSurfaces background thingIsBackground thingParts thingIntersect foundT things st).

(** What the four hit slots say. *)
Definition reportsThing (r : Ray) (thing : Thing) (part : ThingPart) : Prop :=
  thingHit r = Some thing /\ thingPartHit r = Some part
  /\ lightHit r = None /\ lightPartHit r = None.
Definition reportsLight (r : Ray) (light : Light) (part : LightPart) : Prop :=
  lightHit r = Some light /\ lightPartHit r = Some part
  /\ thingHit r = None /\ thingPartHit r = None.
Definition reportsNothing (r : Ray) : Prop :=
  lightHit r = None /\ lightPartHit r = None
  /\ thingHit r = None /\ thingPartHit r = None.

(** The parameters of the candidates, on a given ray. *)
Definition thingParam (r : Ray) (c : Thing * ThingPart) : R := thingIntersect (snd c) r.
Definition lightParam (r : Ray) (c : Light * LightPart) : R := lightIntersect (snd c) r.

(** A part is struck: [intersect] gives a value that the loops take when
    nothing nearer is known. *)
Definition struck (t : R) : Prop := t <> 0 /\ t < INF.

(** Some part of some surface of the scene is struck by the ray. *)
Definition anyStruck (background : bool) (r : Ray) : Prop :=
  (exists c, In c (thingCandidates background) /\ struck (thingIntersect (snd c) r))
  \/ (exists c, In c (lightCandidates background) /\ struck (lightIntersect (snd c) r)).

(** The hit slots agree: a part is recorded exactly with its surface. *)
Definition slotsPaired (r : Ray) : Prop :=
  (lightPartHit r <> None <-> lightHit r <> None)
  /\ (thingPartHit r <> None <-> thingHit r <> None).

(** A thing recorded comes with its part: [trace] may dereference
    [thingPartHit] where [thingHit] is set. *)
Definition partRecorded (r : Ray) : Prop := thingHit r <> None -> thingPartHit r <> None.

(** The rejection loop of [Vector::random] ends within [spins] turns,
    whatever state the generator is in. *)
Definition samplerEnds (spins : nat) : Prop := forall g, sampleLoop spins g <> None.

(** What a caller may do with the result of a recursive call: pass it on,
    or, in [bounceDiffuse], add a colour to it. *)
Definition passesOn (k : Result (RGB * Ray * Rand) -> Result (RGB * Ray * Rand)) : Prop :=
  (forall v, exists v', k (Done v) = Done v')
  /\ k Fault = Fault /\ k OutOfCalls = OutOfCalls /\ k OutOfSpins = OutOfSpins.

(** A body that takes the recursive call as an argument makes no call at
    all, or exactly one, on a ray of depth [d], at least 1, whose hit
    slots are paired.  In the first case the result is not [OutOfCalls],
    and it is a value when [sound] holds. *)
Definition callsAtMostOnce (body : Tracer -> Result (RGB * Ray * Rand)) (d : Z)
           (sound : Prop) : Prop :=
  (exists res, res <> OutOfCalls /\ (sound -> exists v, res = Done v)
               /\ forall self, body self = res)
  \/ (exists r' g' k,
         depth r' = d /\ (1 <= depth r')%Z /\ partRecorded r' /\ passesOn k
         /\ forall self, body self = k (self r' g')).

(** The two rays differ in their hit slots at most. *)
Definition sameButHits (r1 r2 : Ray) : Prop :=
  origin r1 = origin r2 /\ direction r1 = direction r2 /\ color r1 = color r2
  /\ depth r1 = depth r2 /\ insideThings r1 = insideThings r2.

(** The test [into] of the two bounces that look at the medium stack: the
    ray enters the thing it has hit. *)
Definition entering (thing : Thing) (r : Ray) : bool :=
  fst (fst (mediumIndices thing r)).

(** A caller that hands on the ray and the generator of the result it
    gets, as the bounces do with the result of the recursive call. *)
Definition handsOn (k : Result (RGB * Ray * Rand) -> Result (RGB * Ray * Rand)) : Prop :=
  forall x c r' g', k x = Done (c, r', g') -> exists c0, x = Done (c0, r', g').

(** A body that takes the recursive call as an argument relates, by [Q],
    the ray [r] it starts on to the ray it ends on, when it makes no call,
    or to the ray it makes its one call on, whose result it hands on. *)
Definition stepsWithin (Q : Ray -> Ray -> Prop)
           (body : Tracer -> Result (RGB * Ray * Rand)) (r : Ray) : Prop :=
  (exists res, (forall self, body self = res)
               /\ forall c r' g', res = Done (c, r', g') -> Q r r')
  \/ (exists r1 g1 k, Q r r1 /\ handsOn k /\ forall self, body self = k (self r1 g1)).

(** No thing of the scene ever behaves as a dielectric. *)
Definition neverRefracts : Prop := forall thing g, fst (interact thing g) <> REFRACT.

End Notions.

(** ** A small scene

    Horizontal planes: a glass slab whose upper face is the plane [z = 1]
    (refractive index 1.5), a backdrop at [z = 1/2] that belongs to the
    background, and a lamp in the plane [z = 1].  The generator always
    returns 1, with [RAND_MAX = 2]. *)

Module Demo.

#[export] Instance handles : Handles := {|
  Thing := nat;
  ThingPart := nat;
  Light := nat;
  LightPart := nat;
  Thing_eq_dec := Nat.eq_dec;
  Rand := unit
|}.

(** The parameter at which the ray meets the plane [z = h], 0 on a miss. *)
Definition planeHit (h : R) (r : Ray) : R :=
  if Reqb (Triplet.z (direction r)) 0 then 0
  else
    let t := (h - Triplet.z (origin r)) / Triplet.z (direction r) in
    if Rltb 0 t then t else 0.

Definition glass : Thing := 0%nat.
Definition backdrop : Thing := 1%nat.
Definition lamp : Light := 0%nat.

#[export] Instance scene : Scene := {|
  things := [glass; backdrop];
  lights := [lamp];
  sky := Triplet.mk (1/2) (7/10) 1;
  getDirectLight := fun _ _ g => (Black, g);
  thingIsBackground := fun t => Nat.eqb t backdrop;
  thingParts := fun t => [t];
  getColor := fun _ => White;
  getRefractiveIndex := fun t => if Nat.eqb t glass then 3/2 else 1;
  interact := fun t g => (if Nat.eqb t glass then REFRACT else DIFFUSE, g);
  thingIntersect := fun p r => planeHit (if Nat.eqb p glass then 1 else 1/2) r;
  getNormal := fun _ _ => UnitZ;
  lightIsBackground := fun _ => false;
  lightParts := fun l => [l];
  getEmission := fun _ => Triplet.mk 2 2 2;
  lightIntersect := fun _ r => planeHit 1 r;
  rand := fun g => (1%Z, g);
  RAND_MAX := 2%Z;
  INF := 1000000;
  rrLimit := 1
|}.

(** A ray that starts below all three planes and points straight up. *)
Definition rayUp : Ray :=
  mkRay _ (Triplet.mk 0 0 0) UnitZ White 5 [] None None None None.

(** Scenario S4: inside the glass, on its upper face, at 60 degrees to
    the normal. *)
Definition rayS4 : Ray :=
  mkRay _ (Triplet.mk 0 0 1) (Triplet.mk (sqrt 3 / 2) 0 (1/2)) White 1 [glass]
        None None (Some glass) (Some glass).

(** From the vacuum into the glass, downwards at [sin = 3/5]. *)
Definition rayInto : Ray :=
  mkRay _ (Triplet.mk 0 0 1) (Triplet.mk (3/5) 0 (-4/5)) White 3 []
        None None (Some glass) (Some glass).

(** Scenario S5: from the vacuum into the glass, along the normal. *)
Definition rayDown : Ray :=
  mkRay _ (Triplet.mk 0 0 1) (Triplet.mk 0 0 (-1)) White 3 []
        None None (Some glass) (Some glass).

(** A dim ray: the roulette with [u = 1/2] and [rrLimit = 1] kills it. *)
Definition rayDim : Ray :=
  mkRay _ (Triplet.mk 0 0 0) UnitZ (Triplet.mk (1/4) (1/8) (1/4)) 5 []
        None None None None.

(** A ray that the same draw lets live. *)
Definition rayFair : Ray :=
  mkRay _ (Triplet.mk 0 0 0) UnitZ (Triplet.mk (3/4) (1/2) (1/4)) 5 []
        None None None None.

(** Inside the glass, leaving it along the normal. *)
Definition rayLeaving : Ray :=
  mkRay _ (Triplet.mk 0 0 1) UnitZ White 2 [glass]
        None None (Some glass) (Some glass).

(** Above the three planes, pointing up: it misses everything. *)
Definition rayAway : Ray :=
  mkRay _ (Triplet.mk 0 0 2) UnitZ White 5 [] None None None None.

(** Between the backdrop and the two other planes, pointing down. *)
Definition rayBack : Ray :=
  mkRay _ (Triplet.mk 0 0 (3/4)) (Triplet.mk 0 0 (-1)) White 5 [] None None None None.

(** On the glass with no depth left. *)
Definition rayLast : Ray :=
  mkRay _ (Triplet.mk 0 0 1) (Triplet.mk 0 0 (-1)) White 0 []
        None None (Some glass) (Some glass).

(** The same scene with every thing matte. *)
Definition matteScene : Scene := {|
  things := [glass; backdrop];
  lights := [lamp];
  sky := Triplet.mk (1/2) (7/10) 1;
  getDirectLight := fun _ _ g => (Black, g);
  thingIsBackground := fun t => Nat.eqb t backdrop;
  thingParts := fun t => [t];
  getColor := fun _ => White;
  getRefractiveIndex := fun t => if Nat.eqb t glass then 3/2 else 1;
  interact := fun t g => (DIFFUSE, g);
  thingIntersect := fun p r => planeHit (if Nat.eqb p glass then 1 else 1/2) r;
  getNormal := fun _ _ => UnitZ;
  lightIsBackground := fun _ => false;
  lightParts := fun l => [l];
  getEmission := fun _ => Triplet.mk 2 2 2;
  lightIntersect := fun _ r => planeHit 1 r;
  rand := fun g => (1%Z, g);
  RAND_MAX := 2%Z;
  INF := 1000000;
  rrLimit := 1
|}.

(** A pane in the plane [z = 2]. *)
Definition pane : Thing := 2%nat.

(** Three things in the foreground, visited in the order pane, glass,
    backdrop: the pane in the plane [z = 2], the two others in the plane
    [z = 1], where the lamp is too. *)
Definition twinScene : Scene := {|
  things := [pane; glass; backdrop];
  lights := [lamp];
  sky := Triplet.mk (1/2) (7/10) 1;
  getDirectLight := fun _ _ g => (Black, g);
  thingIsBackground := fun _ => false;
  thingParts := fun t => [t];
  getColor := fun _ => White;
  getRefractiveIndex := fun t => if Nat.eqb t glass then 3/2 else 1;
  interact := fun t g => (DIFFUSE, g);
  thingIntersect := fun p r => planeHit (if Nat.eqb p pane then 2 else 1) r;
  getNormal := fun _ _ => UnitZ;
  lightIsBackground := fun _ => false;
  lightParts := fun l => [l];
  getEmission := fun _ => Triplet.mk 2 2 2;
  lightIntersect := fun _ r => planeHit 1 r;
  rand := fun g => (1%Z, g);
  RAND_MAX := 2%Z;
  INF := 1000000;
  rrLimit := 1
|}.

End Demo.

(** * Proofs *)

(** ** Comparisons *)

Lemma Rltb_true (a b : R) : a < b -> Rltb a b = true.
Proof. unfold Rltb; destruct (Rlt_dec a b); [reflexivity | contradiction]. Qed.

Lemma Rltb_false (a b : R) : b <= a -> Rltb a b = false.
Proof. unfold Rltb; destruct (Rlt_dec a b); [lra | reflexivity]. Qed.

Lemma Rltb_spec (a b : R) : Rltb a b = true <-> a < b.
Proof. unfold Rltb; destruct (Rlt_dec a b); split; auto; discriminate. Qed.

Lemma Rleb_true (a b : R) : a <= b -> Rleb a b = true.
Proof. unfold Rleb; destruct (Rle_dec a b); [reflexivity | contradiction]. Qed.

Lemma Rleb_false (a b : R) : b < a -> Rleb a b = false.
Proof. unfold Rleb; destruct (Rle_dec a b); [lra | reflexivity]. Qed.

Lemma Reqb_true (a b : R) : a = b -> Reqb a b = true.
Proof. unfold Reqb; destruct (Req_dec_T a b); [reflexivity | contradiction]. Qed.

Lemma Reqb_false (a b : R) : a <> b -> Reqb a b = false.
Proof. unfold Reqb; destruct (Req_dec_T a b); [contradiction | reflexivity]. Qed.

Lemma Reqb_spec (a b : R) : Reqb a b = true <-> a = b.
Proof. unfold Reqb; destruct (Req_dec_T a b); split; auto; discriminate. Qed.

Lemma nearer_spec (t nearestT : R) : nearer t nearestT = true <-> t <> 0 /\ t < nearestT.
Proof.
  unfold nearer. rewrite andb_true_iff, negb_true_iff, Rltb_spec.
  unfold Reqb; destruct (Req_dec_T t 0); intuition discriminate.
Qed.

(** Decides the comparisons of concrete reals in a goal. *)
Ltac Rdecide :=
  repeat match goal with
    | |- context [Rltb ?a ?b] =>
        first [rewrite (Rltb_true a b) by lra | rewrite (Rltb_false a b) by lra]
    | |- context [Rleb ?a ?b] =>
        first [rewrite (Rleb_true a b) by lra | rewrite (Rleb_false a b) by lra]
    | |- context [Reqb ?a ?b] =>
        first [rewrite (Reqb_true a b) by lra | rewrite (Reqb_false a b) by lra]
    end.

(** ** [Ray::schlick] *)

(** C2, as the code has it: with equal indices [schlick] is [(1 - c)^5],
    which is 0 at [c = 1] only; at [cosTheta = 0] it is 1 for all indices;
    and at [n1 = 1], [n2 = 1.5], [cosTheta = 1] it is 0.04. *)
Theorem schlick_identities :
  (forall n c, schlick n n c = (1 - c) ^ 5)
  /\ (forall n1 n2, schlick n1 n2 0 = 1)
  /\ schlick 1 (3/2) 1 = 4/100.
Proof.
  repeat split.
  - intros n c. unfold schlick. replace (n - n) with 0 by ring.
    unfold Rdiv. ring.
  - intros n1 n2. unfold schlick. ring.
  - unfold schlick. field.
Qed.

(** C2 fails as stated: with equal indices and [cosTheta = 0] the value is
    1, not 0. *)
Lemma schlick_equal_indices_not_zero : schlick 1 1 0 <> 0.
Proof.
  assert (Hone : schlick 1 1 0 = 1) by (unfold schlick; field).
  rewrite Hone. lra.
Qed.

Section RouletteProofs.

Context {H : Handles} {SC : Scene}.

(** ** [Ray::russianRoulette] *)

Lemma roulette_threshold (g : Rand) :
  IZR (fst (rand g)) * rrLimit / IZR RAND_MAX = uniform g * rrLimit.
Proof. unfold uniform, Rdiv. ring. Qed.

(** C4: with [m] the largest component of the colour and [u] the drawn
    sample, the roulette returns false when [rrLimit <= m]; otherwise it
    returns true exactly when [m < u * rrLimit], and a ray that lives has
    its colour multiplied by [rrLimit / m]. *)
Theorem russianRoulette_spec (r : Ray) (g : Rand) :
  (rrLimit <= maxColor r -> fst (fst (russianRoulette r g)) = false)
  /\ (maxColor r < rrLimit ->
      (fst (fst (russianRoulette r g)) = true <-> maxColor r < uniform g * rrLimit)
      /\ (fst (fst (russianRoulette r g)) = false ->
          color (snd (fst (russianRoulette r g)))
          = (color r * (rrLimit / maxColor r))%T)).
Proof.
  unfold russianRoulette. split.
  - intros Hle. rewrite Rleb_true by exact Hle. reflexivity.
  - intros Hlt. rewrite Rleb_false by exact Hlt.
    pose proof (roulette_threshold g) as Hu. unfold uniform in *.
    destruct (rand g) as [n g']; simpl in *. rewrite Hu.
    unfold Rltb. destruct (Rlt_dec _ _) as [Hk | Hk]; simpl; split.
    + tauto.
    + discriminate.
    + split; [discriminate | contradiction].
    + reflexivity.
Qed.

(** C10: the roulette touches nothing but the colour, and the colour only
    when the ray lives after a draw: a killed ray, and a ray with
    [rrLimit <= m], keep their colour; a changed colour means that
    [m < rrLimit], that the draw let the ray live, and that the colour was
    multiplied by [rrLimit / m]. *)
Theorem russianRoulette_frame (r r' : Ray) (g g' : Rand) (killed : bool) :
  russianRoulette r g = (killed, r', g') ->
  r' = setColor (color r') r
  /\ (killed = true -> r' = r)
  /\ (rrLimit <= maxColor r -> r' = r /\ g' = g)
  /\ (color r' <> color r ->
      killed = false /\ maxColor r < rrLimit
      /\ ~ maxColor r < uniform g * rrLimit
      /\ color r' = (color r * (rrLimit / maxColor r))%T).
Proof.
  unfold russianRoulette, Rleb, Rltb.
  pose proof (roulette_threshold g) as Hu. unfold uniform in *.
  assert (Hid : r = setColor (color r) r) by (destruct r; reflexivity).
  destruct (Rle_dec rrLimit (maxColor r)) as [Hle | Hle].
  - intros E; inversion E; subst. split; [exact Hid | ].
    split; [reflexivity | ]. split; [auto | ].
    intros Hne; contradiction Hne; reflexivity.
  - destruct (rand g) as [n gn]; simpl in *. rewrite Hu.
    destruct (Rlt_dec (maxColor r) _) as [Hk | Hk]; intros E; inversion E; subst.
    + split; [exact Hid | ]. split; [reflexivity | ]. split; [intros; lra | ].
      intros Hne; contradiction Hne; reflexivity.
    + split; [reflexivity | ]. split; [discriminate | ]. split; [intros; lra | ].
      intros _. simpl. repeat split; [lra | exact Hk].
Qed.

End RouletteProofs.

(** ** Vectors *)

Lemma length_one (v : Vector) : Triplet.length v = 1 <-> Triplet.dot v v = 1.
Proof.
  unfold Triplet.length. split; intros Hv.
  - destruct (Rle_dec 0 (Triplet.dot v v)) as [Hpos | Hneg].
    + rewrite <- (sqrt_sqrt _ Hpos), Hv. ring.
    + rewrite sqrt_neg_0 in Hv by lra. lra.
  - rewrite Hv. apply sqrt_1.
Qed.

Lemma dot_combination (d n : Vector) (a b s : R) :
  Triplet.dot (d * a + n * b * s)%T n = a * Triplet.dot d n + b * s * Triplet.dot n n.
Proof. destruct d, n; unfold Triplet.dot; simpl; ring. Qed.

Lemma dot_combination_self (d n : Vector) (a b s : R) :
  Triplet.dot (d * a + n * b * s)%T (d * a + n * b * s)%T
  = a * a * Triplet.dot d d + 2 * a * (b * s) * Triplet.dot d n
    + b * s * (b * s) * Triplet.dot n n.
Proof. destruct d, n; unfold Triplet.dot; simpl; ring. Qed.

Lemma sinBetween_unit (u v : Vector) :
  Triplet.dot u u = 1 -> Triplet.dot v v = 1 ->
  sinBetween u v = sqrt (1 - Triplet.dot u v * Triplet.dot u v).
Proof.
  intros Hu Hv. unfold sinBetween, cosBetween.
  rewrite (proj2 (length_one u) Hu), (proj2 (length_one v) Hv).
  f_equal. field.
Qed.

Section RefractProofs.

Context {H : Handles} {SC : Scene}.

(** ** [Ray::bounceRefract] *)

Lemma mediumIndices_eq (thing : Thing) (r : Ray) :
  mediumIndices thing r
  = (fst (fst (mediumIndices thing r)), mediumN1 thing r, mediumN2 thing r).
Proof. unfold mediumN1, mediumN2. destruct (mediumIndices thing r) as [[? ?] ?]; reflexivity. Qed.

Lemma mediumIndices_positive (thing : Thing) (r : Ray) :
  (forall t, 0 < getRefractiveIndex t) ->
  0 < mediumN1 thing r /\ 0 < mediumN2 thing r.
Proof.
  intros Hn. unfold mediumN1, mediumN2, mediumIndices; simpl.
  destruct (insideThings r) as [| top [| below rest]]; simpl;
    try destruct (Thing_eq_dec top thing); auto using Rlt_0_1.
Qed.

(** The reflection of [bounceReflect] and [bounceMetallic] is the mirror
    image of the direction. *)
Lemma reflect_mirrored (surfaceNormal : Vector) (r : Ray) :
  direction (reflect surfaceNormal r) = mirrored (direction r) surfaceNormal.
Proof.
  unfold reflect, mirrored; simpl.
  destruct (direction r), surfaceNormal; unfold Triplet.sub, Triplet.scale, Triplet.dot;
    simpl; f_equal; ring.
Qed.

(** What the branch of total internal reflection does: it adds twice the
    normal component, and leaves the medium stack alone. *)
Lemma refract_total_reflection (thing : Thing) (surfaceNormal : Vector) (r : Ray) :
  1 < sinTheta2Squared thing surfaceNormal r ->
  direction (refract thing surfaceNormal r)
  = (direction r + surfaceNormal * Triplet.dot (direction r) surfaceNormal * 2)%T
  /\ insideThings (refract thing surfaceNormal r) = insideThings r.
Proof.
  unfold sinTheta2Squared, refract. rewrite mediumIndices_eq. intros Htir.
  rewrite Rltb_true by exact Htir. split; reflexivity.
Qed.

(** The direction after a transmission. *)
Lemma refract_transmission (thing : Thing) (surfaceNormal : Vector) (r : Ray) :
  sinTheta2Squared thing surfaceNormal r <= 1 ->
  let eta := mediumN1 thing r / mediumN2 thing r in
  let cosTheta1 := Aux.abs (Triplet.dot (direction r) surfaceNormal) in
  let cosTheta2 := sqrt (1 - sinTheta2Squared thing surfaceNormal r) in
  direction (refract thing surfaceNormal r)
  = (direction r * eta
     + surfaceNormal * (eta * cosTheta1 - cosTheta2)
       * (if Rltb (Triplet.dot (direction r) surfaceNormal) 0 then 1 else -1))%T.
Proof.
  unfold sinTheta2Squared, refract. rewrite mediumIndices_eq. intros Hle.
  rewrite Rltb_false by exact Hle.
  destruct (fst (fst (mediumIndices thing r))); reflexivity.
Qed.

(** C5: in the branch of refractive transmission, for a unit direction
    and a unit normal and positive refractive indices, the outgoing
    direction obeys Snell's law, [n1 * sin theta1 = n2 * sin theta2]. *)
Theorem refract_snell (thing : Thing) (surfaceNormal : Vector) (r : Ray) :
  (forall t, 0 < getRefractiveIndex t) ->
  unitLength (direction r) ->
  unitLength surfaceNormal ->
  sinTheta2Squared thing surfaceNormal r <= 1 ->
  unitLength (direction (refract thing surfaceNormal r))
  /\ mediumN1 thing r * sinBetween (direction r) surfaceNormal
     = mediumN2 thing r * sinBetween (direction (refract thing surfaceNormal r)) surfaceNormal.
Proof.
  intros Hn Hd HN Hle.
  destruct (mediumIndices_positive thing r Hn) as [Hn1 Hn2].
  apply length_one in Hd. apply length_one in HN.
  rewrite (refract_transmission thing surfaceNormal r Hle).
  unfold unitLength. rewrite length_one.
  set (out := (_ + _)%T).
  assert (Hs2 : sinTheta2Squared thing surfaceNormal r
                = mediumN1 thing r / mediumN2 thing r * (mediumN1 thing r / mediumN2 thing r)
                  * (1 - Triplet.dot (direction r) surfaceNormal
                         * Triplet.dot (direction r) surfaceNormal)).
  { unfold sinTheta2Squared, Aux.abs. f_equal. f_equal.
    fold (Rsqr (Rabs (Triplet.dot (direction r) surfaceNormal))).
    rewrite <- Rsqr_abs. reflexivity. }
  assert (Hc2 : sqrt (1 - sinTheta2Squared thing surfaceNormal r)
                * sqrt (1 - sinTheta2Squared thing surfaceNormal r)
                = 1 - sinTheta2Squared thing surfaceNormal r)
    by (apply sqrt_sqrt; lra).
  set (eta := mediumN1 thing r / mediumN2 thing r) in *.
  set (c := Triplet.dot (direction r) surfaceNormal) in *.
  set (c2 := sqrt (1 - sinTheta2Squared thing surfaceNormal r)) in *.
  assert (Heta : 0 < eta) by (apply Rdiv_lt_0_compat; assumption).
  assert (Hout : Triplet.dot out surfaceNormal * Triplet.dot out surfaceNormal = c2 * c2
                 /\ Triplet.dot out out = 1).
  { unfold out, Aux.abs. rewrite dot_combination, dot_combination_self. rewrite Hd, HN.
    fold c. unfold Rltb. destruct (Rlt_dec c 0) as [Hneg | Hpos].
    - rewrite (Rabs_left c Hneg). split; [ring | ].
      rewrite Hs2 in Hc2. nra.
    - rewrite (Rabs_right c) by lra. split; [ring | ].
      rewrite Hs2 in Hc2. nra. }
  destruct Hout as [HoutN Hunit]. split; [exact Hunit | ].
  rewrite (sinBetween_unit _ _ Hd HN), (sinBetween_unit _ _ Hunit HN).
  rewrite HoutN, Hc2, Hs2. fold c.
  assert (Hn1eta : mediumN1 thing r = mediumN2 thing r * eta)
    by (unfold eta; field; lra).
  destruct (Rle_dec 0 (1 - c * c)) as [Hnn | Hneg].
  - replace (1 - (1 - eta * eta * (1 - c * c))) with (eta * eta * (1 - c * c)) by ring.
    rewrite sqrt_mult by nra. rewrite sqrt_square by lra.
    rewrite Hn1eta at 1. ring.
  - rewrite (sqrt_neg_0 (1 - c * c)) by lra.
    rewrite sqrt_neg_0 by nra. ring.
Qed.

End RefractProofs.

(** ** The loops of [traceToNextIntersection] *)

Section ScanProofs.

Context {H : Handles} {SC : Scene}.

Lemma sameButHits_refl (r : Ray) : sameButHits r r.
Proof. unfold sameButHits; auto. Qed.

Lemma sameButHits_trans (r1 r2 r3 : Ray) :
  sameButHits r1 r2 -> sameButHits r2 r3 -> sameButHits r1 r3.
Proof. unfold sameButHits; intuition congruence. Qed.

Lemma sameButHits_sym (r1 r2 : Ray) : sameButHits r1 r2 -> sameButHits r2 r1.
Proof. unfold sameButHits; intuition congruence. Qed.

Lemma geometric_same {P : Type} (intersect : P -> Ray -> R) (p : P) (r1 r2 : Ray) :
  geometric intersect -> sameButHits r1 r2 -> intersect p r1 = intersect p r2.
Proof. intros Hgeo (Ho & Hd & _). apply Hgeo; assumption. Qed.

Lemma scanParts_candidates {S P : Type} (intersect : P -> Ray -> R)
      (found : S -> P -> Ray -> Ray) (s : S) (parts : list P) (st : Ray * R) :
  scanParts intersect (found s) parts st
  = scanCandidates intersect found (map (pair s) parts) st.
Proof.
  revert st. induction parts as [| p rest IH]; intros st; simpl; [reflexivity | apply IH].
Qed.

Lemma scanCandidates_app {S P : Type} (intersect : P -> Ray -> R)
      (found : S -> P -> Ray -> Ray) (cs1 cs2 : list (S * P)) (st : Ray * R) :
  scanCandidates intersect found (cs1 ++ cs2) st
  = scanCandidates intersect found cs2 (scanCandidates intersect found cs1 st).
Proof.
  revert st. induction cs1 as [| c rest IH]; intros st; simpl; [reflexivity | apply IH].
Qed.

Lemma scanSurfaces_candidates {S P : Type} (background : bool) (isBackground : S -> bool)
      (parts : S -> list P) (intersect : P -> Ray -> R) (found : S -> P -> Ray -> Ray)
      (surfaces : list S) (st : Ray * R) :
  scanSurfaces background isBackground parts intersect found surfaces st
  = scanCandidates intersect found (candidates background isBackground parts surfaces) st.
Proof.
  revert st. induction surfaces as [| s rest IH]; intros st; simpl; [reflexivity | ].
  rewrite scanCandidates_app, IH.
  destruct (Bool.eqb (isBackground s) background); simpl.
  - rewrite scanParts_candidates. reflexivity.
  - reflexivity.
Qed.

Lemma in_candidates {S P : Type} (background : bool) (isBackground : S -> bool)
      (parts : S -> list P) (surfaces : list S) (s : S) (p : P) :
  In (s, p) (candidates background isBackground parts surfaces)
  <-> In s surfaces /\ isBackground s = background /\ In p (parts s).
Proof.
  unfold candidates. rewrite in_flat_map. split.
  - intros (s' & Hs' & Hin).
    destruct (Bool.eqb (isBackground s') background) eqn:E; [ | contradiction].
    apply in_map_iff in Hin. destruct Hin as (p' & Heq & Hp'). inversion Heq; subst.
    apply eqb_prop in E. auto.
  - intros (Hs & Hbg & Hp). exists s. split; [exact Hs | ].
    rewrite Hbg, eqb_reflx. apply in_map. exact Hp.
Qed.

Section OneLoop.

Context {S P : Type}.
Variable intersect : P -> Ray -> R.
Variable found : S -> P -> Ray -> Ray.
Variable keeps : Ray -> Prop.
Hypothesis Hgeo : geometric intersect.
Hypothesis Hfound : forall s p r, sameButHits (found s p r) r.
Hypothesis Hkeeps : forall s p r, keeps r -> keeps (found s p r).

(** A loop either leaves its state alone, no candidate being nearer
    than [nearestT], or ends on a candidate that is nearer, recorded on a
    ray that differs from the first in its hit slots only. *)
Lemma scanCandidates_cases (cs : list (S * P)) (r : Ray) (nearestT : R) :
  keeps r ->
  (scanCandidates intersect found cs (r, nearestT) = (r, nearestT)
   /\ forall c, In c cs -> nearer (intersect (snd c) r) nearestT = false)
  \/ (exists s p r0,
        In (s, p) cs /\ sameButHits r0 r /\ keeps r0
        /\ scanCandidates intersect found cs (r, nearestT)
           = (found s p r0, intersect p r)
        /\ nearer (intersect p r) nearestT = true).
Proof.
  revert r nearestT. induction cs as [| [s p] rest IH]; intros r nearestT Hk.
  - left. split; [reflexivity | intros c []].
  - simpl. destruct (nearer (intersect p r) nearestT) eqn:Hn.
    + right.
      destruct (IH (found s p r) (intersect p r) (Hkeeps s p r Hk))
        as [[Hidle _] | (s' & p' & r0 & Hin & Hsame & Hk0 & Hscan & Hn')].
      * exists s, p, r. rewrite Hidle.
        split; [left; reflexivity | ]. split; [apply sameButHits_refl | ].
        split; [exact Hk | ]. split; [reflexivity | exact Hn].
      * exists s', p', r0.
        rewrite (geometric_same intersect p' _ r Hgeo (Hfound s p r)) in Hscan, Hn'.
        split; [right; exact Hin | ].
        split; [eapply sameButHits_trans; [exact Hsame | apply Hfound] | ].
        split; [exact Hk0 | ]. split; [exact Hscan | ].
        apply nearer_spec in Hn, Hn'. apply nearer_spec. split; [tauto | lra].
    + destruct (IH r nearestT Hk)
        as [[Hidle Hnone] | (s' & p' & r0 & Hin & Hsame & Hk0 & Hscan & Hn')].
      * left. split; [exact Hidle | ].
        intros c [<- | Hc]; [exact Hn | apply Hnone; exact Hc].
      * right. exists s', p', r0.
        split; [right; exact Hin | ]. split; [exact Hsame | ].
        split; [exact Hk0 | ]. split; [exact Hscan | exact Hn'].
Qed.

(** What a loop ends on is not above [nearestT], nor above the
    parameter, other than 0, of any candidate. *)
Lemma scanCandidates_nearest (cs : list (S * P)) (r : Ray) (nearestT : R) :
  snd (scanCandidates intersect found cs (r, nearestT)) <= nearestT
  /\ nearestAmong (snd (scanCandidates intersect found cs (r, nearestT)))
                  (fun c => intersect (snd c) r) cs.
Proof.
  revert r nearestT. induction cs as [| [s p] rest IH]; intros r nearestT.
  - simpl. split; [lra | intros c []].
  - simpl. destruct (nearer (intersect p r) nearestT) eqn:Hn.
    + destruct (IH (found s p r) (intersect p r)) as [Hle Hall].
      apply nearer_spec in Hn. split; [lra | ].
      intros c [<- | Hc] Hnz; simpl; [exact Hle | ].
      rewrite <- (geometric_same intersect (snd c) _ r Hgeo (Hfound s p r)).
      apply Hall; [exact Hc | ].
      rewrite (geometric_same intersect (snd c) _ r Hgeo (Hfound s p r)). exact Hnz.
    + destruct (IH r nearestT) as [Hle Hall]. split; [exact Hle | ].
      intros c [<- | Hc] Hnz; simpl in *; [ | apply Hall; assumption].
      destruct (Rlt_dec (intersect p r) nearestT) as [Hlt | Hge]; [ | lra].
      assert (nearer (intersect p r) nearestT = true)
        by (apply nearer_spec; split; assumption).
      congruence.
Qed.

Lemma scanCandidates_same (cs : list (S * P)) (r : Ray) (nearestT : R) :
  sameButHits (fst (scanCandidates intersect found cs (r, nearestT))) r.
Proof.
  revert r nearestT. induction cs as [| [s p] rest IH]; intros r nearestT; simpl.
  - apply sameButHits_refl.
  - destruct (nearer (intersect p r) nearestT).
    + eapply sameButHits_trans; [apply IH | apply Hfound].
    + apply IH.
Qed.

End OneLoop.

End ScanProofs.

Section PassProofs.

Context {H : Handles} {SC : Scene}.

Hypothesis HgeoT : geometric thingIntersect.
Hypothesis HgeoL : geometric lightIntersect.

Lemma foundThing_same (s : Thing) (p : ThingPart) (r : Ray) :
  sameButHits (foundThing s p r) r.
Proof. unfold sameButHits; simpl; auto. Qed.

Lemma foundBackgroundThing_same (s : Thing) (p : ThingPart) (r : Ray) :
  sameButHits (foundBackgroundThing s p r) r.
Proof. unfold sameButHits; simpl; auto. Qed.

Lemma foundLight_same (l : Light) (p : LightPart) (r : Ray) :
  sameButHits (foundLight l p r) r.
Proof. unfold sameButHits; simpl; auto. Qed.

Lemma not_nearer (t nearestT : R) :
  nearer t nearestT = false -> t <> 0 -> nearestT <= t.
Proof.
  intros Hn Hnz. destruct (Rlt_dec t nearestT) as [Hlt | Hge]; [ | lra].
  assert (nearer t nearestT = true) by (apply nearer_spec; split; assumption).
  congruence.
Qed.

Section OnePass.

Variable background : bool.
Variable foundT : Thing -> ThingPart -> Ray -> Ray.
Hypothesis HfoundT : forall s p r, sameButHits (foundT s p r) r.
Hypothesis HslotsT :
  forall s p r, lightHit r = None /\ lightPartHit r = None ->
                reportsThing (foundT s p r) s p.

(** A pass that starts with empty slots ends in one of three ways:
    nothing is recorded, no candidate being nearer than [nearestT]; a
    thing is recorded, at a parameter not above that of any candidate
    of the pass; or a light is recorded, at a parameter strictly below
    that of every thing and not above that of any light. *)
Lemma passWith_cases (r : Ray) (nearestT : R) :
  reportsNothing r ->
  let st := passWith foundT background (r, nearestT) in
  sameButHits (fst st) r
  /\ ((st = (r, nearestT)
       /\ (forall c, In c (thingCandidates background) ->
                     nearer (thingParam r c) nearestT = false)
       /\ (forall c, In c (lightCandidates background) ->
                     nearer (lightParam r c) nearestT = false))
      \/ (exists s p,
            In (s, p) (thingCandidates background)
            /\ reportsThing (fst st) s p
            /\ snd st = thingIntersect p r
            /\ nearer (thingIntersect p r) nearestT = true
            /\ nearestAmong (thingIntersect p r) (thingParam r)
                            (thingCandidates background)
            /\ nearestAmong (thingIntersect p r) (lightParam r)
                            (lightCandidates background))
      \/ (exists l p,
            In (l, p) (lightCandidates background)
            /\ reportsLight (fst st) l p
            /\ snd st = lightIntersect p r
            /\ nearer (lightIntersect p r) nearestT = true
            /\ strictlyNearest (lightIntersect p r) (thingParam r)
                               (thingCandidates background)
            /\ nearestAmong (lightIntersect p r) (lightParam r)
                            (lightCandidates background))).
Proof.
  intros (HlN & HlpN & HtN & HtpN) st. subst st. unfold passWith.
  rewrite !scanSurfaces_candidates.
  fold (thingCandidates background). fold (lightCandidates background).
  set (keepsT := fun r0 : Ray => lightHit r0 = None /\ lightPartHit r0 = None).
  assert (HkT : forall s p r0, keepsT r0 -> keepsT (foundT s p r0)).
  { intros s p r0 Hk. destruct (HslotsT s p r0 Hk) as (_ & _ & ? & ?).
    split; assumption. }
  pose proof (scanCandidates_cases thingIntersect foundT keepsT HgeoT HfoundT HkT
                (thingCandidates background) r nearestT (conj HlN HlpN)) as HcT.
  pose proof (scanCandidates_nearest thingIntersect foundT HgeoT HfoundT
                (thingCandidates background) r nearestT) as [HleT HnearT].
  pose proof (scanCandidates_same thingIntersect foundT HfoundT
                (thingCandidates background) r nearestT) as HsameT.
  destruct (scanCandidates thingIntersect foundT (thingCandidates background)
                           (r, nearestT)) as [r1 t1] eqn:E1.
  simpl in HleT, HnearT, HsameT.
  pose proof (scanCandidates_cases lightIntersect foundLight (fun _ => True) HgeoL
                foundLight_same (fun _ _ _ _ => I)
                (lightCandidates background) r1 t1 I) as HcL.
  pose proof (scanCandidates_nearest lightIntersect foundLight HgeoL foundLight_same
                (lightCandidates background) r1 t1) as [HleL HnearL].
  pose proof (scanCandidates_same lightIntersect foundLight foundLight_same
                (lightCandidates background) r1 t1) as HsameL.
  assert (HL : forall p, lightIntersect p r1 = lightIntersect p r)
    by (intros p; apply geometric_same; assumption).
  destruct (scanCandidates lightIntersect foundLight (lightCandidates background)
                           (r1, t1)) as [r2 t2] eqn:E2.
  simpl in HleL, HnearL, HsameL. simpl fst. simpl snd.
  split; [eapply sameButHits_trans; eassumption | ].
  destruct HcL as [[HidleL HnoneL] | (l & q & r0 & HinL & Hsame0 & _ & HscanL & HnL)].
  - (* the loop over the lights records nothing *)
    inversion HidleL; subst r2 t2.
    destruct HcT as [[HidleT HnoneT] | (s & p & r0 & HinT & Hsame0 & Hk0 & HscanT & HnT)].
    + inversion HidleT; subst r1 t1. left. repeat split; assumption.
    + inversion HscanT; subst r1 t1. right; left. exists s, p.
      split; [exact HinT | ]. split; [apply HslotsT; exact Hk0 | ].
      split; [reflexivity | ]. split; [exact HnT | ]. split; [exact HnearT | ].
      intros c Hc Hnz. unfold lightParam in *. rewrite <- HL in *.
      apply not_nearer; [apply HnoneL; exact Hc | exact Hnz].
  - (* the loop over the lights records a light *)
    inversion HscanL; subst r2 t2. rewrite HL in *. right; right. exists l, q.
    apply nearer_spec in HnL. destruct HnL as [HnzL HltL].
    split; [exact HinL | ].
    split; [unfold reportsLight, foundLight; simpl; auto | ].
    split; [reflexivity | ].
    split; [apply nearer_spec; split; [exact HnzL | lra] | ].
    split.
    + intros c Hc Hnz. specialize (HnearT c Hc Hnz). unfold thingParam in *. lra.
    + intros c Hc Hnz. unfold lightParam in *. specialize (HnearL c Hc).
      simpl in HnearL. rewrite HL in HnearL. apply HnearL. exact Hnz.
Qed.

End OnePass.

End PassProofs.

Section QueryProofs.

Context {H : Handles} {SC : Scene}.

Lemma struck_nearer (t : R) : struck t <-> nearer t INF = true.
Proof. unfold struck. symmetry. apply nearer_spec. Qed.

Lemma clearHits_same (r : Ray) : sameButHits (clearHits r) r.
Proof. unfold sameButHits; simpl; auto. Qed.

Lemma clearHits_nothing (r : Ray) : reportsNothing (clearHits r).
Proof. unfold reportsNothing; simpl; auto. Qed.

Lemma foundThing_slots (s : Thing) (p : ThingPart) (r : Ray) :
  lightHit r = None /\ lightPartHit r = None -> reportsThing (foundThing s p r) s p.
Proof. intros [? ?]. unfold reportsThing; simpl; auto. Qed.

Lemma foundBackgroundThing_slots (s : Thing) (p : ThingPart) (r : Ray) :
  lightHit r = None /\ lightPartHit r = None ->
  reportsThing (foundBackgroundThing s p r) s p.
Proof. intros _. unfold reportsThing; simpl; auto. Qed.

Lemma foregroundPass_passWith (st : Ray * R) :
  foregroundPass st = passWith (foundIn false) false st.
Proof. reflexivity. Qed.

Lemma backgroundPass_passWith (st : Ray * R) :
  backgroundPass st = passWith (foundIn true) true st.
Proof. reflexivity. Qed.

Section Geometric.

Hypothesis HgeoT : geometric thingIntersect.
Hypothesis HgeoL : geometric lightIntersect.

(** What a pass over the surfaces of one class records, in terms of the
    ray the query was called on. *)
Lemma pass_outcome (background : bool) (r : Ray) :
  let st := passWith (foundIn background) background (clearHits r, INF) in
  sameButHits (fst st) r
  /\ ((st = (clearHits r, INF) /\ ~ anyStruck background r)
      \/ (exists s p,
            In (s, p) (thingCandidates background)
            /\ reportsThing (fst st) s p
            /\ snd st = thingIntersect p r
            /\ struck (thingIntersect p r)
            /\ nearestAmong (thingIntersect p r) (thingParam r)
                            (thingCandidates background)
            /\ nearestAmong (thingIntersect p r) (lightParam r)
                            (lightCandidates background))
      \/ (exists l p,
            In (l, p) (lightCandidates background)
            /\ reportsLight (fst st) l p
            /\ snd st = lightIntersect p r
            /\ struck (lightIntersect p r)
            /\ strictlyNearest (lightIntersect p r) (thingParam r)
                               (thingCandidates background)
            /\ nearestAmong (lightIntersect p r) (lightParam r)
                            (lightCandidates background))).
Proof.
  intros st. subst st.
  assert (HT : forall p, thingIntersect p (clearHits r) = thingIntersect p r)
    by (intros p; apply geometric_same; [exact HgeoT | apply clearHits_same]).
  assert (HL : forall p, lightIntersect p (clearHits r) = lightIntersect p r)
    by (intros p; apply geometric_same; [exact HgeoL | apply clearHits_same]).
  assert (HpT : forall c, thingParam (clearHits r) c = thingParam r c)
    by (intros c; apply HT).
  assert (HpL : forall c, lightParam (clearHits r) c = lightParam r c)
    by (intros c; apply HL).
  assert (Hcases := passWith_cases HgeoT HgeoL background (foundIn background)).
  specialize (Hcases
    ltac:(destruct background; [apply foundBackgroundThing_same | apply foundThing_same])
    ltac:(destruct background; [apply foundBackgroundThing_slots | apply foundThing_slots])
    (clearHits r) INF (clearHits_nothing r)).
  cbv zeta in Hcases. destruct Hcases as [Hsame Hcases].
  split; [eapply sameButHits_trans; [exact Hsame | apply clearHits_same] | ].
  destruct Hcases as [(Hst & HnT & HnL) | [(s & p & Hin & Hrep & Ht & Hn & HaT & HaL)
                                         | (l & p & Hin & Hrep & Ht & Hn & HaT & HaL)]].
  - left. split; [exact Hst | ].
    intros [(c & Hc & Hs) | (c & Hc & Hs)]; apply struck_nearer in Hs.
    + specialize (HnT c Hc). rewrite HpT in HnT. unfold thingParam in HnT. congruence.
    + specialize (HnL c Hc). rewrite HpL in HnL. unfold lightParam in HnL. congruence.
  - right; left. exists s, p. rewrite HT in *.
    split; [exact Hin | ]. split; [exact Hrep | ]. split; [exact Ht | ].
    split; [apply struck_nearer; exact Hn | ].
    split; intros c Hc Hnz.
    + rewrite <- HpT in *. apply HaT; assumption.
    + rewrite <- HpL in *. apply HaL; assumption.
  - right; right. exists l, p. rewrite HL in *.
    split; [exact Hin | ]. split; [exact Hrep | ]. split; [exact Ht | ].
    split; [apply struck_nearer; exact Hn | ].
    split; intros c Hc Hnz.
    + rewrite <- HpT in *. apply HaT; assumption.
    + rewrite <- HpL in *. apply HaL; assumption.
Qed.

Lemma isHit_thing (r : Ray) (s : Thing) (p : ThingPart) :
  reportsThing r s p -> isHit r = true.
Proof. intros (Ht & _). unfold isHit. rewrite Ht. reflexivity. Qed.

Lemma isHit_light (r : Ray) (l : Light) (p : LightPart) :
  reportsLight r l p -> isHit r = true.
Proof. intros (Hl & _ & Ht & _). unfold isHit. rewrite Hl, Ht. reflexivity. Qed.

(** When a foreground part is struck, the query ends after the
    foreground pass. *)
Lemma query_foreground (r : Ray) :
  (0 <= depth r)%Z -> anyStruck false r ->
  traceToNextIntersection r = Done (advance (foregroundPass (clearHits r, INF))).
Proof.
  intros Hd Hany. unfold traceToNextIntersection.
  destruct (Z.ltb_spec (depth r) 0) as [Hneg | _]; [lia | ].
  rewrite foregroundPass_passWith.
  destruct (pass_outcome false r) as [_ [(_ & Hno) | [(s & p & _ & Hrep & _)
                                                    | (l & p & _ & Hrep & _)]]].
  - contradiction.
  - rewrite (isHit_thing _ _ _ Hrep). reflexivity.
  - rewrite (isHit_light _ _ _ Hrep). reflexivity.
Qed.

(** When none is, the background pass decides. *)
Lemma query_background (r : Ray) :
  (0 <= depth r)%Z -> ~ anyStruck false r ->
  traceToNextIntersection r = Done (advance (backgroundPass (clearHits r, INF))).
Proof.
  intros Hd Hany. unfold traceToNextIntersection.
  destruct (Z.ltb_spec (depth r) 0) as [Hneg | _]; [lia | ].
  rewrite foregroundPass_passWith.
  destruct (pass_outcome false r) as [_ [(Hst & _) | [(s & p & Hin & _ & _ & Hs & _)
                                                    | (l & p & Hin & _ & _ & Hs & _)]]].
  - rewrite Hst. reflexivity.
  - contradiction Hany. left. exists (s, p); split; [exact Hin | exact Hs].
  - contradiction Hany. right. exists (l, p); split; [exact Hin | exact Hs].
Qed.

Lemma anyStruck_decided (background : bool) (r : Ray) :
  anyStruck background r \/ ~ anyStruck background r.
Proof.
  destruct (pass_outcome background r)
    as [_ [(_ & Hno) | [(s & p & Hin & _ & _ & Hs & _) | (l & p & Hin & _ & _ & Hs & _)]]].
  - right; exact Hno.
  - left; left. exists (s, p); split; assumption.
  - left; right. exists (l, p); split; assumption.
Qed.

(** The query, in full: the pass that decides, and what it records. *)
Lemma query_outcome (r : Ray) :
  (0 <= depth r)%Z ->
  exists background,
    (background = true -> ~ anyStruck false r)
    /\ (~ anyStruck background r -> background = true)
    /\ traceToNextIntersection r
       = Done (advance (passWith (foundIn background) background (clearHits r, INF))).
Proof.
  intros Hd. destruct (anyStruck_decided false r) as [Hany | Hno].
  - exists false. split; [discriminate | ]. split; [contradiction | ].
    apply query_foreground; assumption.
  - exists true. split; [intros _; exact Hno | ]. split; [reflexivity | ].
    apply query_background; assumption.
Qed.

End Geometric.

End QueryProofs.

Section QueryTheorems.

Context {H : Handles} {SC : Scene}.

Lemma query_depth (r r' : Ray) :
  traceToNextIntersection r = Done r' -> (0 <= depth r)%Z.
Proof.
  unfold traceToNextIntersection.
  destruct (Z.ltb_spec (depth r) 0); [discriminate | auto].
Qed.

Lemma pointAt_same (r1 r2 : Ray) (t : R) :
  sameButHits r1 r2 -> pointAt r1 t = pointAt r2 t.
Proof. intros (Ho & Hd & _). unfold pointAt. rewrite Ho, Hd. reflexivity. Qed.

(** C9: after the query at most one of [lightHit] and [thingHit] is set;
    both are null exactly when no part of any surface was struck; and a
    part is recorded exactly with its surface. *)
Theorem traceToNextIntersection_slots (r r' : Ray) :
  geometric thingIntersect -> geometric lightIntersect ->
  traceToNextIntersection r = Done r' ->
  (lightHit r' = None \/ thingHit r' = None)
  /\ slotsPaired r'
  /\ ((lightHit r' = None /\ thingHit r' = None)
      <-> ~ (anyStruck false r \/ anyStruck true r)).
Proof.
  intros HgeoT HgeoL Hq. pose proof (query_depth r r' Hq) as Hd.
  destruct (query_outcome HgeoT HgeoL r Hd) as (bg & Hfg & Hbg & Heq).
  rewrite Heq in Hq. inversion Hq; subst r'; clear Hq.
  destruct (pass_outcome HgeoT HgeoL bg r)
    as [_ [(Hst & Hno) | [(s & p & Hin & Hrep & _ & Hs & _)
                         | (l & p & Hin & Hrep & _ & Hs & _)]]].
  - rewrite Hst. unfold slotsPaired; simpl.
    split; [left; reflexivity | ]. split; [tauto | ].
    split; [ | auto]. intros _ [Hany | Hany].
    + apply (Hfg (Hbg Hno)). exact Hany.
    + rewrite (Hbg Hno) in Hno. contradiction.
  - destruct Hrep as (Ht & Htp & Hl & Hlp). unfold slotsPaired; simpl.
    rewrite Ht, Htp, Hl, Hlp.
    split; [left; reflexivity | ]. split; [split; split; congruence | ].
    split; [intros [_ Hnone]; discriminate | ].
    intros Hno. contradiction Hno.
    destruct bg; [right | left]; left; exists (s, p); split; assumption.
  - destruct Hrep as (Hl & Hlp & Ht & Htp). unfold slotsPaired; simpl.
    rewrite Ht, Htp, Hl, Hlp.
    split; [right; reflexivity | ]. split; [split; split; congruence | ].
    split; [intros [Hnone _]; discriminate | ].
    intros Hno. contradiction Hno.
    destruct bg; [right | left]; right; exists (l, p); split; assumption.
Qed.

(** C6: when a foreground part is struck, the query ends after the
    foreground pass, whatever the background holds: the surface recorded is
    a foreground surface, struck at a positive [t] that no foreground part
    undercuts with a positive parameter, and the origin moves there. *)
Theorem foreground_shadows_background (r : Ray) :
  geometric thingIntersect -> geometric lightIntersect ->
  nonNegative thingIntersect -> nonNegative lightIntersect ->
  (0 <= depth r)%Z ->
  anyStruck false r ->
  exists r' t,
    traceToNextIntersection r = Done r'
    /\ r' = advance (foregroundPass (clearHits r, INF))
    /\ origin r' = pointAt r t
    /\ 0 < t
    /\ ((exists s p, reportsThing r' s p /\ In s things
                     /\ thingIsBackground s = false /\ In p (thingParts s)
                     /\ thingIntersect p r = t)
        \/ (exists l p, reportsLight r' l p /\ In l lights
                        /\ lightIsBackground l = false /\ In p (lightParts l)
                        /\ lightIntersect p r = t))
    /\ (forall s p, In s things -> thingIsBackground s = false -> In p (thingParts s) ->
                    0 < thingIntersect p r -> t <= thingIntersect p r)
    /\ (forall l p, In l lights -> lightIsBackground l = false -> In p (lightParts l) ->
                    0 < lightIntersect p r -> t <= lightIntersect p r).
Proof.
  intros HgeoT HgeoL HposT HposL Hd Hany.
  exists (advance (foregroundPass (clearHits r, INF))).
  exists (snd (foregroundPass (clearHits r, INF))).
  split; [apply query_foreground; assumption | ]. split; [reflexivity | ].
  rewrite foregroundPass_passWith.
  destruct (pass_outcome HgeoT HgeoL false r)
    as [Hsame [(_ & Hno) | [(s & p & Hin & Hrep & Ht & Hs & HaT & HaL)
                            | (l & p & Hin & Hrep & Ht & Hs & HaT & HaL)]]].
  - contradiction.
  - split; [apply pointAt_same; exact Hsame | ]. rewrite Ht.
    destruct Hs as [Hnz _]. pose proof (HposT p r) as Hge.
    split; [lra | ].
    apply in_candidates in Hin. destruct Hin as (Hs1 & Hs2 & Hs3).
    split; [left; exists s, p; repeat split; solve [apply Hrep | assumption] | ].
    split.
    + intros s' p' H1 H2 H3 Hpos. apply (HaT (s', p')).
      * apply in_candidates. auto.
      * unfold thingParam; simpl. lra.
    + intros l' p' H1 H2 H3 Hpos. apply (HaL (l', p')).
      * apply in_candidates. auto.
      * unfold lightParam; simpl. lra.
  - split; [apply pointAt_same; exact Hsame | ]. rewrite Ht.
    destruct Hs as [Hnz _]. pose proof (HposL p r) as Hge.
    split; [lra | ].
    apply in_candidates in Hin. destruct Hin as (Hs1 & Hs2 & Hs3).
    split; [right; exists l, p; repeat split; solve [apply Hrep | assumption] | ].
    split.
    + intros s' p' H1 H2 H3 Hpos. apply Rlt_le. apply (HaT (s', p')).
      * apply in_candidates. auto.
      * unfold thingParam; simpl. lra.
    + intros l' p' H1 H2 H3 Hpos. apply (HaL (l', p')).
      * apply in_candidates. auto.
      * unfold lightParam; simpl. lra.
Qed.

(** C3, as the code has it: when a thing and a light of the pass that
    decides are struck at the same parameter [t], the smallest of the pass,
    the thing is recorded and the light slots stay null: the loops replace
    what they hold on a strictly smaller parameter only, and the things are
    visited first.  A light is recorded, and the thing slots cleared, only
    when it is strictly nearer than every thing of its pass. *)
Theorem ties_keep_the_thing :
  geometric thingIntersect -> geometric lightIntersect ->
  (forall (r : Ray) (background : bool) cT cL t,
      (0 <= depth r)%Z ->
      (background = true -> ~ anyStruck false r) ->
      In cT (thingCandidates background) -> In cL (lightCandidates background) ->
      thingParam r cT = t -> lightParam r cL = t -> struck t ->
      nearestAmong t (thingParam r) (thingCandidates background) ->
      nearestAmong t (lightParam r) (lightCandidates background) ->
      exists r' s p,
        traceToNextIntersection r = Done r'
        /\ reportsThing r' s p
        /\ In (s, p) (thingCandidates background)
        /\ thingIntersect p r = t)
  /\ (forall (r r' : Ray) l p,
         traceToNextIntersection r = Done r' ->
         lightHit r' = Some l -> lightPartHit r' = Some p ->
         reportsLight r' l p
         /\ strictlyNearest (lightIntersect p r) (thingParam r)
                            (thingCandidates (lightIsBackground l))).
Proof.
  intros HgeoT HgeoL. split.
  - intros r bg cT cL t Hd Hfg HinT HinL HtT HtL Hs HaT HaL.
    assert (Hany : anyStruck bg r).
    { left. exists cT. split; [exact HinT | ]. unfold thingParam in HtT.
      rewrite HtT. exact Hs. }
    assert (Hq : traceToNextIntersection r
                 = Done (advance (passWith (foundIn bg) bg (clearHits r, INF)))).
    { destruct bg.
      - apply query_background; auto.
      - apply query_foreground; auto. }
    exists (advance (passWith (foundIn bg) bg (clearHits r, INF))).
    destruct (pass_outcome HgeoT HgeoL bg r)
      as [_ [(_ & Hno) | [(s & p & Hin & Hrep & Ht & Hs' & HaT' & HaL')
                          | (l & p & Hin & Hrep & Ht & Hs' & HaT' & HaL')]]].
    + contradiction.
    + exists s, p. split; [exact Hq | ]. split; [exact Hrep | ].
      split; [exact Hin | ].
      destruct Hs as [Hnz _]. destruct Hs' as [Hnz' _].
      specialize (HaT' cT HinT). specialize (HaT (s, p) Hin).
      unfold thingParam in *; simpl in *. rewrite HtT in HaT'.
      specialize (HaT' Hnz). specialize (HaT Hnz'). lra.
    + exfalso. destruct Hs as [Hnz _]. destruct Hs' as [Hnz' _].
      specialize (HaT' cT HinT). specialize (HaL (l, p) Hin).
      unfold thingParam, lightParam in *; simpl in *. rewrite HtT in HaT'.
      specialize (HaT' Hnz). specialize (HaL Hnz'). lra.
  - intros r r' l p Hq Hl Hlp. pose proof (query_depth r r' Hq) as Hd.
    destruct (query_outcome HgeoT HgeoL r Hd) as (bg & _ & _ & Heq).
    rewrite Heq in Hq. inversion Hq; subst r'; clear Hq.
    destruct (pass_outcome HgeoT HgeoL bg r)
      as [_ [(Hst & _) | [(s & q & _ & Hrep & _) | (l' & q & Hin & Hrep & _ & _ & HaT & _)]]].
    + rewrite Hst in Hl. discriminate.
    + destruct Hrep as (_ & _ & Hnone & _). simpl in Hl. congruence.
    + pose proof Hrep as (Hl' & Hlp' & _). simpl in Hl, Hlp.
      assert (l' = l) by congruence. assert (q = p) by congruence. subst l' q.
      split; [exact Hrep | ].
      apply in_candidates in Hin. destruct Hin as (_ & Hbg & _). rewrite Hbg. exact HaT.
Qed.

End QueryTheorems.

(** ** [Vector::random] *)

Lemma dot_comm (a b : Vector) : Triplet.dot a b = Triplet.dot b a.
Proof. unfold Triplet.dot; ring. Qed.

Lemma dot_scale_l (a b : Vector) (k : R) :
  Triplet.dot (a * k)%T b = Triplet.dot a b * k.
Proof. unfold Triplet.dot; simpl; ring. Qed.

Lemma dot_scale_both (a : Vector) (k : R) :
  Triplet.dot (a * k)%T (a * k)%T = Triplet.dot a a * (k * k).
Proof. unfold Triplet.dot; simpl; ring. Qed.

Lemma cross_dot_left (a b : Vector) : Triplet.dot (Triplet.cross a b) a = 0.
Proof. unfold Triplet.dot, Triplet.cross; simpl; ring. Qed.

Lemma cross_dot_right (a b : Vector) : Triplet.dot (Triplet.cross a b) b = 0.
Proof. unfold Triplet.dot, Triplet.cross; simpl; ring. Qed.

Lemma cross_length (a b : Vector) :
  Triplet.dot (Triplet.cross a b) (Triplet.cross a b)
  = Triplet.dot a a * Triplet.dot b b - Triplet.dot a b * Triplet.dot a b.
Proof. unfold Triplet.dot, Triplet.cross; simpl; ring. Qed.

Lemma length_positive (v : Vector) : 0 < Triplet.dot v v -> 0 < Triplet.length v.
Proof. intros Hv. unfold Triplet.length. apply sqrt_lt_R0. exact Hv. Qed.

Lemma length_squared (v : Vector) :
  0 <= Triplet.dot v v -> Triplet.length v * Triplet.length v = Triplet.dot v v.
Proof. intros Hv. unfold Triplet.length. apply sqrt_sqrt. exact Hv. Qed.

Lemma normalize_unit (v : Vector) :
  0 < Triplet.dot v v -> Triplet.dot (Triplet.normalize v) (Triplet.normalize v) = 1.
Proof.
  intros Hv. unfold Triplet.normalize. rewrite dot_scale_both.
  pose proof (length_positive v Hv) as HL.
  rewrite <- (length_squared v) by lra. field. lra.
Qed.

Lemma normalize_dot (v w : Vector) :
  Triplet.dot (Triplet.normalize v) w = Triplet.dot v w / Triplet.length v.
Proof. unfold Triplet.normalize. rewrite dot_scale_l. reflexivity. Qed.

Lemma normalize_of_unit (v : Vector) : Triplet.dot v v = 1 -> Triplet.normalize v = v.
Proof.
  intros Hv. unfold Triplet.normalize. rewrite (proj2 (length_one v) Hv), Rinv_1.
  destruct v; unfold Triplet.scale; simpl. f_equal; ring.
Qed.

(** A combination in an orthonormal frame: its squared length and its
    component along the third axis. *)
Lemma frame_combination (tX tY n : Vector) (x y z : R) :
  Triplet.dot tX tX = 1 -> Triplet.dot tY tY = 1 -> Triplet.dot n n = 1 ->
  Triplet.dot tX tY = 0 -> Triplet.dot tX n = 0 -> Triplet.dot tY n = 0 ->
  Triplet.dot (tX * x + tY * y + n * z)%T (tX * x + tY * y + n * z)%T = x * x + y * y + z * z
  /\ Triplet.dot (tX * x + tY * y + n * z)%T n = z.
Proof.
  intros Hxx Hyy Hnn Hxy Hxn Hyn.
  assert (E1 : Triplet.dot (tX * x + tY * y + n * z)%T (tX * x + tY * y + n * z)%T
               = x * x * Triplet.dot tX tX + y * y * Triplet.dot tY tY
                 + z * z * Triplet.dot n n + 2 * x * y * Triplet.dot tX tY
                 + 2 * x * z * Triplet.dot tX n + 2 * y * z * Triplet.dot tY n)
    by (unfold Triplet.dot; simpl; ring).
  assert (E2 : Triplet.dot (tX * x + tY * y + n * z)%T n
               = x * Triplet.dot tX n + y * Triplet.dot tY n + z * Triplet.dot n n)
    by (unfold Triplet.dot; simpl; ring).
  rewrite E1, E2, Hxx, Hyy, Hnn, Hxy, Hxn, Hyn. split; ring.
Qed.

(** The tangential frame that [Vector::random] builds is orthonormal. *)
Lemma tangential_frame (normal : Vector) :
  Triplet.dot normal normal = 1 ->
  let frame :=
    if Triplet.eqb UnitZ normal || Triplet.eqb (Triplet.neg UnitZ) normal
    then (UnitX, UnitY)
    else
      let tX := Triplet.normalize (Triplet.cross normal UnitZ) in
      (tX, Triplet.normalize (Triplet.cross normal tX)) in
  Triplet.dot (fst frame) (fst frame) = 1 /\ Triplet.dot (snd frame) (snd frame) = 1
  /\ Triplet.dot (fst frame) (snd frame) = 0
  /\ Triplet.dot (fst frame) normal = 0 /\ Triplet.dot (snd frame) normal = 0.
Proof.
  intros Hn frame. subst frame.
  destruct (Triplet.eqb UnitZ normal || Triplet.eqb (Triplet.neg UnitZ) normal) eqn:Hz.
  - apply orb_true_iff in Hz. unfold Triplet.eqb in Hz.
    rewrite !andb_true_iff, !Reqb_spec in Hz.
    destruct normal as [a b c]; simpl in *.
    assert (a = 0 /\ b = 0) as [-> ->] by (destruct Hz as [[[? ?] ?] | [[? ?] ?]]; lra).
    unfold Triplet.dot; simpl. repeat split; ring.
  - apply orb_false_iff in Hz. destruct Hz as [Hup Hdown].
    set (w := Triplet.cross normal UnitZ).
    assert (Hw : 0 < Triplet.dot w w).
    { unfold w. rewrite cross_length, Hn.
      destruct normal as [a b c]; unfold Triplet.dot, Triplet.eqb in *; simpl in *.
      assert (Hab : a <> 0 \/ b <> 0).
      { destruct (Req_dec_T a 0) as [Ha | Ha]; [ | left; exact Ha].
        destruct (Req_dec_T b 0) as [Hb | Hb]; [ | right; exact Hb].
        exfalso. subst a b.
        assert (Hc : c = 1 \/ c = -1) by (assert ((c - 1) * (c + 1) = 0) by nra;
          destruct (Rmult_integral _ _ H); [left | right]; lra).
        destruct Hc as [-> | ->].
        - rewrite !Reqb_true in Hup by lra. discriminate.
        - rewrite !Reqb_true in Hdown by lra. discriminate. }
      destruct Hab; nra. }
    set (tX := Triplet.normalize w).
    assert (HtX : Triplet.dot tX tX = 1) by (apply normalize_unit; exact Hw).
    assert (HtXn : Triplet.dot tX normal = 0).
    { unfold tX. rewrite normalize_dot. unfold w. rewrite cross_dot_left.
      unfold Rdiv. ring. }
    assert (Hv : Triplet.dot (Triplet.cross normal tX) (Triplet.cross normal tX) = 1).
    { rewrite cross_length, Hn, HtX, (dot_comm normal tX), HtXn. ring. }
    simpl. rewrite (normalize_of_unit _ Hv).
    split; [exact HtX | ]. split; [exact Hv | ].
    split; [rewrite dot_comm; apply cross_dot_right | ].
    split; [exact HtXn | apply cross_dot_left].
Qed.

Lemma orient_hemisphere (normal : Vector) (x y z : R) :
  Triplet.dot normal normal = 1 ->
  0 < x * x + y * y + z * z -> 0 <= z ->
  unitLength (orient normal x y z) /\ 0 <= Triplet.dot (orient normal x y z) normal.
Proof.
  intros Hn Hpos Hz. unfold orient.
  pose proof (tangential_frame normal Hn) as Hframe. cbv zeta in Hframe.
  destruct (if Triplet.eqb UnitZ normal || Triplet.eqb (Triplet.neg UnitZ) normal
            then _ else _) as [tX tY].
  simpl in Hframe. destruct Hframe as (Hxx & Hyy & Hxy & Hxn & Hyn).
  destruct (frame_combination tX tY normal x y z Hxx Hyy Hn Hxy Hxn Hyn) as [Hlen Hdot].
  set (v := (tX * x + tY * y + normal * z)%T) in *.
  assert (Hv : 0 < Triplet.dot v v) by lra.
  split.
  - apply length_one. apply normalize_unit. exact Hv.
  - rewrite normalize_dot, Hdot.
    apply Rmult_le_pos; [exact Hz | ].
    apply Rlt_le, Rinv_0_lt_compat, length_positive. exact Hv.
Qed.

Section RandomProofs.

Context {H : Handles} {SC : Scene}.

Lemma rejected_false (x y z : R) :
  rejected x y z = false -> 0 < x * x + y * y + z * z.
Proof.
  unfold rejected. rewrite orb_false_iff, !andb_false_iff.
  intros [_ Hzero].
  assert (x <> 0 \/ y <> 0 \/ z <> 0) as Hnz.
  { unfold Reqb in Hzero.
    destruct (Req_dec_T x 0); [ | auto].
    destruct (Req_dec_T y 0); [ | auto].
    destruct (Req_dec_T z 0); [ | auto].
    destruct Hzero as [[? | ?] | ?]; discriminate. }
  destruct Hnz as [? | [? | ?]]; nra.
Qed.

Lemma drawSample_z (g : Rand) :
  randInRange -> 0 <= snd (fst (drawSample g)).
Proof.
  intros [Hmax Hrange]. unfold drawSample.
  destruct (rand g) as [a g1]. destruct (rand g1) as [b g2].
  pose proof (Hrange g2) as Hc. destruct (rand g2) as [c g3]. simpl in *.
  apply Rmult_le_pos.
  - apply IZR_le. lia.
  - apply Rlt_le, Rinv_0_lt_compat. apply IZR_lt. lia.
Qed.

Lemma sampleLoop_accepts (spins : nat) (g g' : Rand) (x y z : R) :
  randInRange -> sampleLoop spins g = Some (x, y, z, g') ->
  0 < x * x + y * y + z * z /\ 0 <= z.
Proof.
  intros Hrange. revert g. induction spins as [| spins IH]; intros g; simpl.
  - discriminate.
  - pose proof (drawSample_z g Hrange) as Hz.
    destruct (drawSample g) as [[[x0 y0] z0] g0]. simpl in Hz.
    destruct (rejected x0 y0 z0) eqn:Hrej.
    + apply IH.
    + intros E; inversion E; subst. split; [apply rejected_false; exact Hrej | exact Hz].
Qed.

Lemma sampleLoop_finishes (n : nat) (g : Rand) :
  acceptedAt n g -> exists s, sampleLoop (S n) g = Some s.
Proof.
  revert g. induction n as [| n IH]; intros g; simpl.
  - destruct (drawSample g) as [[[x y] z] g']. intros ->. eauto.
  - destruct (drawSample g) as [[[x y] z] g']. intros Hacc.
    destruct (rejected x y z); [ | eauto].
    apply IH in Hacc. simpl in Hacc. exact Hacc.
Qed.

(** C8: for a unit normal and every generator whose draws lie between 0
    and [RAND_MAX], whatever [Vector::random] returns is a unit vector
    [d] with [d * normal >= 0]; and it does return, as soon as one of the
    samples drawn is accepted. *)
Theorem random_hemisphere (normal : Vector) (g : Rand) :
  randInRange -> unitLength normal ->
  (forall spins d g', random spins normal g = Some (d, g') ->
                      unitLength d /\ 0 <= Triplet.dot d normal)
  /\ (forall n, acceptedAt n g ->
                exists d g', random (S n) normal g = Some (d, g')
                             /\ unitLength d /\ 0 <= Triplet.dot d normal).
Proof.
  intros Hrange Hn. apply length_one in Hn.
  assert (Hpartial : forall spins d g', random spins normal g = Some (d, g') ->
                                        unitLength d /\ 0 <= Triplet.dot d normal).
  { intros spins d g'. unfold random.
    destruct (sampleLoop spins g) as [[[[x y] z] g0] | ] eqn:Hloop; [ | discriminate].
    intros E; inversion E; subst.
    destruct (sampleLoop_accepts _ _ _ _ _ _ Hrange Hloop) as [Hpos Hz].
    apply orient_hemisphere; assumption. }
  split; [exact Hpartial | ].
  intros n Hacc. destruct (sampleLoop_finishes n g Hacc) as [[[[x y] z] g0] Hloop].
  exists (orient normal x y z), g0.
  assert (E : random (S n) normal g = Some (orient normal x y z, g0))
    by (unfold random; rewrite Hloop; reflexivity).
  split; [exact E | ]. apply (Hpartial (S n) _ g0). exact E.
Qed.

End RandomProofs.

(** ** [Ray::trace] *)

Section TraceProofs.

Context {H : Handles} {SC : Scene}.

Lemma scanCandidates_keeps {S P : Type} (intersect : P -> Ray -> R)
      (found : S -> P -> Ray -> Ray) (keeps : Ray -> Prop) :
  (forall s p r, keeps r -> keeps (found s p r)) ->
  forall cs st, keeps (fst st) -> keeps (fst (scanCandidates intersect found cs st)).
Proof.
  intros Hkeeps cs. induction cs as [| [s p] rest IH]; intros st Hk; simpl.
  - exact Hk.
  - apply IH. destruct (nearer _ _); simpl; auto.
Qed.

Lemma passWith_paired (background : bool) (st : Ray * R) :
  reportsNothing (fst st) ->
  slotsPaired (fst (passWith (foundIn background) background st))
  /\ sameButHits (fst (passWith (foundIn background) background st)) (fst st).
Proof.
  intros (Hl & Hlp & Ht & Htp). unfold passWith. rewrite !scanSurfaces_candidates.
  set (keepsT := fun r : Ray =>
                   lightHit r = None /\ lightPartHit r = None
                   /\ (thingPartHit r <> None <-> thingHit r <> None)).
  assert (HT : keepsT (fst (scanCandidates thingIntersect (foundIn background)
                   (candidates background thingIsBackground thingParts things) st))).
  { apply scanCandidates_keeps.
    - intros s p r (Hl0 & Hlp0 & _). unfold keepsT. destruct background; simpl.
      + repeat split; congruence.
      + repeat split; congruence.
    - unfold keepsT. rewrite Hl, Hlp, Ht, Htp. tauto. }
  split.
  - apply scanCandidates_keeps.
    + intros l p r _. unfold slotsPaired; simpl. split; split; congruence.
    + destruct HT as (Hl1 & Hlp1 & Hpair). unfold slotsPaired.
      rewrite Hl1, Hlp1. tauto.
  - destruct (scanCandidates thingIntersect _ _ st) as [r1 t1] eqn:E1.
    eapply sameButHits_trans.
    + apply scanCandidates_same. intros; unfold sameButHits; simpl; auto.
    + replace r1 with (fst (scanCandidates thingIntersect (foundIn background)
                   (candidates background thingIsBackground thingParts things)
                   (fst st, snd st))) by (rewrite <- surjective_pairing, E1; reflexivity).
      apply scanCandidates_same.
      intros; destruct background; unfold sameButHits; simpl; auto.
Qed.

(** The query returns when the depth is not negative; it keeps the depth
    and leaves the hit slots paired. *)
Lemma query_succeeds (r : Ray) :
  (0 <= depth r)%Z ->
  exists r', traceToNextIntersection r = Done r'
             /\ depth r' = depth r /\ slotsPaired r'.
Proof.
  intros Hd. unfold traceToNextIntersection.
  destruct (Z.ltb_spec (depth r) 0) as [Hneg | _]; [lia | ].
  rewrite foregroundPass_passWith.
  destruct (passWith_paired false (clearHits r, INF) (clearHits_nothing r))
    as [Hpair Hsame].
  destruct (isHit _) eqn:Hhit.
  - eexists. split; [reflexivity | ]. split.
    + simpl. destruct Hsame as (_ & _ & _ & Hdepth & _). exact Hdepth.
    + exact Hpair.
  - rewrite backgroundPass_passWith.
    set (st := passWith (foundIn false) false (clearHits r, INF)) in *.
    assert (Hnothing : reportsNothing (fst st)).
    { unfold isHit in Hhit. destruct Hpair as [HL HT]. unfold reportsNothing.
      destruct (thingHit (fst st)), (lightHit (fst st)); try discriminate.
      destruct (lightPartHit (fst st)) as [lp | ].
      { exfalso. apply (proj1 HL); [discriminate | reflexivity]. }
      destruct (thingPartHit (fst st)) as [tp | ].
      { exfalso. apply (proj1 HT); [discriminate | reflexivity]. }
      repeat split; reflexivity. }
    destruct (passWith_paired true st Hnothing) as [Hpair' Hsame'].
    eexists. split; [reflexivity | ]. split.
    + destruct Hsame' as (_ & _ & _ & Hdepth' & _).
      destruct Hsame as (_ & _ & _ & Hdepth & _).
      change (depth (fst (passWith (foundIn true) true st)) = depth r).
      rewrite Hdepth'. exact Hdepth.
    + exact Hpair'.
Qed.

Lemma russianRoulette_fields (r : Ray) (g : Rand) :
  snd (fst (russianRoulette r g)) = setColor (color (snd (fst (russianRoulette r g)))) r.
Proof.
  unfold russianRoulette. destruct (Rleb _ _); [destruct r; reflexivity | ].
  destruct (rand g) as [n g']. destruct (Rltb _ _); [destruct r | ]; reflexivity.
Qed.

End TraceProofs.

Section TraceShape.

Context {H : Handles} {SC : Scene}.

Variable spins : nat.

Lemma passesOn_id : passesOn (fun res => res).
Proof. unfold passesOn. repeat split; eauto. Qed.

Lemma passesOn_not_out (k : Result (RGB * Ray * Rand) -> Result (RGB * Ray * Rand))
      (res : Result (RGB * Ray * Rand)) :
  passesOn k -> res <> OutOfCalls -> k res <> OutOfCalls.
Proof.
  intros (Hdone & Hfault & _ & Hspins) Hres. destruct res as [v | | | ].
  - destruct (Hdone v) as [v' ->]. discriminate.
  - rewrite Hfault. discriminate.
  - contradiction.
  - rewrite Hspins. discriminate.
Qed.

Lemma russianRoulette_depth (r : Ray) (g : Rand) :
  depth (snd (fst (russianRoulette r g))) = depth r
  /\ thingHit (snd (fst (russianRoulette r g))) = thingHit r
  /\ thingPartHit (snd (fst (russianRoulette r g))) = thingPartHit r.
Proof. rewrite russianRoulette_fields. repeat split. Qed.

Lemma refract_depth (thing : Thing) (n : Vector) (r : Ray) :
  depth (refract thing n r) = depth r.
Proof.
  unfold refract. destruct (mediumIndices thing r) as [[into n1] n2].
  destruct (Rltb _ _); [reflexivity | ]. destruct into; reflexivity.
Qed.

Lemma partRecorded_paired (r : Ray) : slotsPaired r -> partRecorded r.
Proof. intros [_ HT]. unfold partRecorded. apply HT. Qed.

(** The end of the three specular bounces: the query, then the
    recursive call. *)
Lemma query_then_call (r : Ray) (g : Rand) (d : Z) (sound : Prop) :
  depth r = d -> (1 <= d)%Z ->
  callsAtMostOnce
    (fun self => ' r' <- traceToNextIntersection r ;; self r' g) d sound.
Proof.
  intros Hd Hone. destruct (query_succeeds r) as (r' & Hq & Hd' & Hpair); [lia | ].
  right. exists r', g, (fun res => res).
  split; [congruence | ]. split; [lia | ].
  split; [apply partRecorded_paired; exact Hpair | ].
  split; [apply passesOn_id | ].
  intros self. rewrite Hq. reflexivity.
Qed.

Ltac returns_at_once :=
  left; eexists; split; [ | split; [ | intros self; reflexivity]];
  [discriminate | intros _; eexists; reflexivity].

Ltac faults Hsound :=
  left; exists Fault; split; [discriminate | ];
  split; [intros Hsound | intros self; reflexivity].

Lemma bounceReflect_calls (r : Ray) (g : Rand) :
  callsAtMostOnce (fun self => bounceReflect self r g) (depth r)
                  (thingHit r <> None /\ thingPartHit r <> None /\ samplerEnds spins).
Proof.
  unfold bounceReflect. destruct (Z.ltb_spec (depth r) 1) as [Hlow | Hone].
  - returns_at_once.
  - destruct (russianRoulette_depth r g) as (Hd & _ & Hp).
    destruct (russianRoulette r g) as [[killed r1] g1]. simpl in Hd, Hp.
    destruct killed; [returns_at_once | ].
    destruct (thingPartHit r1) as [part | ] eqn:Hpart; cbn [deref bind].
    + apply query_then_call; [simpl; exact Hd | exact Hone].
    + faults Hsound. destruct Hsound as (_ & Hnn & _). congruence.
Qed.

Lemma bounceRefract_calls (r : Ray) (g : Rand) :
  callsAtMostOnce (fun self => bounceRefract self r g) (depth r)
                  (thingHit r <> None /\ thingPartHit r <> None /\ samplerEnds spins).
Proof.
  unfold bounceRefract. destruct (Z.ltb_spec (depth r) 1) as [Hlow | Hone].
  - returns_at_once.
  - destruct (russianRoulette_depth r g) as (Hd & Ht & Hp).
    destruct (russianRoulette r g) as [[killed r1] g1]. simpl in Hd, Ht, Hp.
    destruct killed; [returns_at_once | ].
    destruct (thingHit r1) as [thing | ] eqn:Hthing; cbn [deref bind].
    + destruct (thingPartHit r1) as [part | ] eqn:Hpart; cbn [deref bind].
      * apply query_then_call; [rewrite refract_depth; exact Hd | exact Hone].
      * faults Hsound. destruct Hsound as (_ & Hnn & _). congruence.
    + faults Hsound. destruct Hsound as (Hnn & _). congruence.
Qed.

Lemma bounceMetallic_calls (r : Ray) (g : Rand) :
  callsAtMostOnce (fun self => bounceMetallic self r g) (depth r)
                  (thingHit r <> None /\ thingPartHit r <> None /\ samplerEnds spins).
Proof.
  unfold bounceMetallic.
  destruct (thingHit r) as [thing | ] eqn:Hthing; cbn [deref bind].
  - destruct (mediumIndices thing r) as [[into n1] n2].
    destruct (thingPartHit r) as [part | ] eqn:Hpart; cbn [deref bind].
    + set (r0 := paint _ (reflect _ r)).
      assert (Hd0 : depth r0 = depth r) by reflexivity.
      destruct (Z.ltb_spec (depth r0) 1) as [Hlow | Hone]; [returns_at_once | ].
      destruct (russianRoulette_depth r0 g) as (Hd & _).
      destruct (russianRoulette r0 g) as [[killed r1] g1]. simpl in Hd.
      destruct killed; [returns_at_once | ].
      apply query_then_call; [congruence | lia].
    + faults Hsound. destruct Hsound as (_ & Hnn & _). congruence.
  - faults Hsound. destruct Hsound as (Hnn & _). congruence.
Qed.

Lemma bounceDiffuse_calls (r : Ray) (g : Rand) :
  callsAtMostOnce (fun self => bounceDiffuse spins self r g) (depth r)
                  (thingHit r <> None /\ thingPartHit r <> None /\ samplerEnds spins).
Proof.
  unfold bounceDiffuse.
  destruct (thingPartHit r) as [part | ] eqn:Hpart; cbn [deref bind].
  - destruct (getDirectLight _ _ g) as [directLight g0].
    destruct (Z.ltb_spec (depth r) 1) as [Hlow | Hone]; [returns_at_once | ].
    destruct (russianRoulette_depth r g0) as (Hd & _).
    destruct (russianRoulette r g0) as [[killed r1] g1]. simpl in Hd.
    destruct killed; [returns_at_once | ].
    unfold random. destruct (sampleLoop spins g1) as [[[[x y] z] g2] | ] eqn:Hloop.
    + set (r2 := paint _ (setDirection _ r1)).
      assert (Hd2 : depth r2 = depth r) by (unfold r2; simpl; exact Hd).
      destruct (query_succeeds r2) as (r' & Hq & Hd' & Hpair); [lia | ].
      right. exists r', g2.
      exists (fun res => ' (c, r3, g3) <- res ;;
                         Done ((Triplet.tint (color r) directLight + c)%T, r3, g3)).
      split; [congruence | ]. split; [lia | ].
      split; [apply partRecorded_paired; exact Hpair | ].
      split.
      * unfold passesOn. repeat split; try reflexivity.
        intros [[c r3] g3]. eexists. reflexivity.
      * intros self. rewrite Hq. reflexivity.
    + left. exists OutOfSpins. split; [discriminate | ].
      split; [ | intros self; reflexivity].
      intros (_ & _ & Hends). contradiction (Hends g1).
  - faults Hsound. destruct Hsound as (_ & Hnn & _). congruence.
Qed.

(** The body of [trace] makes at most one recursive call, on a ray whose
    depth is one less, and at least 1. *)
Lemma traceBody_calls (r : Ray) (g : Rand) :
  callsAtMostOnce (fun self => traceBody spins self r g) (depth r - 1)
                  (partRecorded r /\ samplerEnds spins).
Proof.
  unfold traceBody.
  destruct (Triplet.eqb Black (color r) || (depth r <? 0)%Z); [returns_at_once | ].
  destruct (lightHit r) as [light | ]; [returns_at_once | ].
  destruct (thingHit r) as [thing | ] eqn:Hthing; [ | returns_at_once].
  set (r1 := setDepth _ _).
  assert (Hd1 : depth r1 = (depth r - 1)%Z) by reflexivity.
  assert (Hsound : partRecorded r /\ samplerEnds spins ->
                   thingHit r1 <> None /\ thingPartHit r1 <> None /\ samplerEnds spins).
  { intros [Hrec Hends]. unfold partRecorded in Hrec. rewrite Hthing in Hrec.
    simpl. rewrite Hthing. repeat split; [discriminate | | exact Hends].
    apply Hrec. discriminate. }
  destruct (interact thing g) as [material g1].
  assert (Hweaken : forall body,
             callsAtMostOnce body (depth r1)
               (thingHit r1 <> None /\ thingPartHit r1 <> None /\ samplerEnds spins) ->
             callsAtMostOnce body (depth r - 1) (partRecorded r /\ samplerEnds spins)).
  { intros body [(res & Hres & Hval & Hall) | Hcall].
    - left. exists res. auto.
    - right. rewrite <- Hd1. exact Hcall. }
  apply Hweaken. destruct material.
  - apply bounceDiffuse_calls.
  - apply bounceMetallic_calls.
  - apply bounceReflect_calls.
  - apply bounceRefract_calls.
Qed.

End TraceShape.

Section TraceTheorems.

Context {H : Handles} {SC : Scene}.

Lemma trace_unfold (spins calls : nat) :
  trace spins calls
  = traceBody spins match calls with
                    | O => fun _ _ => OutOfCalls
                    | S calls' => trace spins calls'
                    end.
Proof. destruct calls; reflexivity. Qed.

(** A budget of [depth - 1] recursive calls is never used up, and the
    call ends in a value when the ray is well formed and the sampler of
    directions ends. *)
Lemma trace_within_budget (spins calls : nat) :
  forall r g,
    (depth r - 1 <= Z.of_nat calls)%Z ->
    trace spins calls r g <> OutOfCalls
    /\ (partRecorded r -> samplerEnds spins -> exists v, trace spins calls r g = Done v).
Proof.
  induction calls as [| calls IH]; intros r g Hbudget; rewrite trace_unfold;
    destruct (traceBody_calls spins r g)
      as [(res & Hres & Hval & Hall) | (r' & g' & k & Hd & Hone & Hrec & Hk & Hall)];
    rewrite Hall.
  - split; [exact Hres | intros Hr Hs; apply Hval; split; assumption].
  - simpl in Hbudget. lia.
  - split; [exact Hres | intros Hr Hs; apply Hval; split; assumption].
  - destruct (IH r' g') as [Hnot Hdone]; [lia | ]. split.
    + apply passesOn_not_out; assumption.
    + intros _ Hs. destruct (Hdone Hrec Hs) as [v ->].
      destruct Hk as (Hk & _). apply Hk.
Qed.

(** C7: the recursive call that the body of [trace] makes, if any, is on
    a ray whose depth is one less, and at least 1; hence a call of [trace]
    recurses no deeper than the depth of the ray, and it returns when the
    hit slots are paired and the sampler of directions ends. *)
Theorem trace_depth_bounded (spins : nat) (r : Ray) (g : Rand) :
  (forall self1 self2 : Tracer,
      (forall r' g', depth r' = (depth r - 1)%Z -> (1 <= depth r')%Z ->
                     self1 r' g' = self2 r' g') ->
      traceBody spins self1 r g = traceBody spins self2 r g)
  /\ trace spins (Z.to_nat (depth r)) r g <> OutOfCalls
  /\ (partRecorded r -> samplerEnds spins ->
      exists v, trace spins (Z.to_nat (depth r)) r g = Done v).
Proof.
  split.
  - intros self1 self2 Hagree.
    destruct (traceBody_calls spins r g)
      as [(res & _ & _ & Hall) | (r' & g' & k & Hd & Hone & _ & _ & Hall)].
    + rewrite !Hall. reflexivity.
    + rewrite !Hall. f_equal. apply Hagree; assumption.
  - apply trace_within_budget. lia.
Qed.

End TraceTheorems.

(** * Further properties of the code *)

(** ** The mirror reflection of [bounceReflect] and [bounceMetallic] *)

Section ReflectProofs.

Context {H : Handles} {SC : Scene}.

Lemma mirrored_normal_component (d n : Vector) :
  Triplet.dot n n = 1 ->
  Triplet.dot (d - n * Triplet.dot d n * 2)%T n = - Triplet.dot d n.
Proof.
  intros Hn.
  assert (E : Triplet.dot (d - n * Triplet.dot d n * 2)%T n
              = Triplet.dot d n - 2 * Triplet.dot d n * Triplet.dot n n)
    by (unfold Triplet.dot; simpl; ring).
  rewrite E, Hn. ring.
Qed.

Lemma mirrored_length (d n : Vector) :
  Triplet.dot n n = 1 ->
  Triplet.dot (d - n * Triplet.dot d n * 2)%T (d - n * Triplet.dot d n * 2)%T
  = Triplet.dot d d.
Proof.
  intros Hn.
  assert (E : Triplet.dot (d - n * Triplet.dot d n * 2)%T (d - n * Triplet.dot d n * 2)%T
              = Triplet.dot d d
                + 4 * Triplet.dot d n * Triplet.dot d n * (Triplet.dot n n - 1))
    by (unfold Triplet.dot; simpl; ring).
  rewrite E, Hn. ring.
Qed.

(** X1: about a unit normal, the reflection of [bounceReflect] and
    [bounceMetallic] keeps the length of the direction, turns its component
    along the normal into the opposite, and undoes itself when applied
    twice. *)
Theorem reflect_law (surfaceNormal : Vector) (r : Ray) :
  unitLength surfaceNormal ->
  Triplet.length (direction (reflect surfaceNormal r)) = Triplet.length (direction r)
  /\ Triplet.dot (direction (reflect surfaceNormal r)) surfaceNormal
     = - Triplet.dot (direction r) surfaceNormal
  /\ reflect surfaceNormal (reflect surfaceNormal r) = r.
Proof.
  intros Hn. apply length_one in Hn.
  pose proof (mirrored_normal_component (direction r) surfaceNormal Hn) as Hc.
  pose proof (mirrored_length (direction r) surfaceNormal Hn) as Hl.
  split; [unfold Triplet.length; simpl; rewrite Hl; reflexivity | ].
  split; [exact Hc | ].
  destruct r as [o d c dp ins lh lph th tph]; unfold reflect, setDirection in *;
    simpl in *.
  f_equal. rewrite Hc.
  destruct d as [dx dy dz], surfaceNormal as [nx ny nz].
  unfold Triplet.sub, Triplet.scale, Triplet.dot; simpl. f_equal; ring.
Qed.

End ReflectProofs.

(** ** The range of [Ray::schlick] *)

Lemma schlick_R0_range (n1 n2 : R) :
  0 < n1 -> 0 < n2 ->
  0 <= (n1 - n2) * (n1 - n2) / ((n1 + n2) * (n1 + n2)) < 1.
Proof.
  intros H1 H2.
  assert (Hb : 0 < (n1 + n2) * (n1 + n2)) by nra.
  split.
  - apply Rmult_le_pos; [apply (Rle_0_sqr (n1 - n2)) | ].
    apply Rlt_le, Rinv_0_lt_compat. exact Hb.
  - apply Rmult_lt_reg_r with ((n1 + n2) * (n1 + n2)); [exact Hb | ].
    unfold Rdiv. rewrite Rmult_assoc, Rinv_l by lra. nra.
Qed.

Lemma pow5_range (p : R) : 0 <= p <= 1 -> 0 <= p ^ 5 <= 1.
Proof.
  intros [Hp0 Hp1]. split.
  - apply pow_le. exact Hp0.
  - rewrite <- (pow1 5). apply pow_incr. split; assumption.
Qed.

(** X2: for positive refractive indices and a cosine between 0 and 1,
    [schlick] is a reflectance: it lies between its value at normal
    incidence ([cosTheta = 1], which is not negative) and 1. *)
Theorem schlick_range (n1 n2 cosTheta : R) :
  0 < n1 -> 0 < n2 -> 0 <= cosTheta <= 1 ->
  0 <= schlick n1 n2 1
  /\ schlick n1 n2 1 <= schlick n1 n2 cosTheta
  /\ schlick n1 n2 cosTheta <= 1.
Proof.
  intros H1 H2 Hc. unfold schlick.
  pose proof (schlick_R0_range n1 n2 H1 H2) as HR0.
  set (R0 := (n1 - n2) * (n1 - n2) / ((n1 + n2) * (n1 + n2))) in *.
  assert (Hp : 0 <= (1 - cosTheta) ^ 5 <= 1) by (apply pow5_range; lra).
  set (p := (1 - cosTheta) ^ 5) in *.
  replace ((1 - 1) ^ 5) with 0 by ring.
  repeat split; nra.
Qed.


(** ** The transmission of [bounceRefract] *)

Section TransmissionProofs.

Context {H : Handles} {SC : Scene}.

Lemma refract_stack (thing : Thing) (surfaceNormal : Vector) (r : Ray) :
  sinTheta2Squared thing surfaceNormal r <= 1 ->
  insideThings (refract thing surfaceNormal r)
  = if entering thing r then thing :: insideThings r else tl (insideThings r).
Proof.
  unfold sinTheta2Squared, refract, entering. rewrite mediumIndices_eq. intros Hle.
  rewrite Rltb_false by exact Hle.
  destruct (fst (fst (mediumIndices thing r))); reflexivity.
Qed.

(** X4: a ray that goes into a medium at least as dense as the one it is
    in ([0 < n1 <= n2]) is never reflected totally: [bounceRefract]
    transmits it, and the medium stack grows or shrinks by the thing hit. *)
Theorem refract_into_denser (thing : Thing) (surfaceNormal : Vector) (r : Ray) :
  0 < mediumN1 thing r <= mediumN2 thing r ->
  sinTheta2Squared thing surfaceNormal r <= 1
  /\ insideThings (refract thing surfaceNormal r)
     = if entering thing r then thing :: insideThings r else tl (insideThings r).
Proof.
  intros [Hn1 Hn12].
  assert (Hle : sinTheta2Squared thing surfaceNormal r <= 1).
  { unfold sinTheta2Squared.
    set (c1 := Aux.abs (Triplet.dot (direction r) surfaceNormal)).
    assert (Heta : 0 < mediumN1 thing r / mediumN2 thing r <= 1).
    { split; [apply Rdiv_lt_0_compat; lra | ].
      apply Rmult_le_reg_r with (mediumN2 thing r); [lra | ].
      unfold Rdiv. rewrite Rmult_assoc, Rinv_l by lra. lra. }
    set (eta := mediumN1 thing r / mediumN2 thing r) in *.
    assert (0 <= c1 * c1) by (apply (Rle_0_sqr c1)).
    assert (0 <= eta * eta <= 1) by nra.
    destruct (Rle_dec (1 - c1 * c1) 0); nra. }
  split; [exact Hle | apply refract_stack; exact Hle].
Qed.

(** X5: the medium stack is balanced.  When a ray enters a thing by a
    transmission and, the stack being as that left it, leaves the same
    thing by a transmission, the second bounce sees the two indices
    swapped and restores the stack. *)
Theorem refract_enter_leave (thing : Thing) (normalIn normalOut : Vector) (r r1 : Ray) :
  entering thing r = true ->
  sinTheta2Squared thing normalIn r <= 1 ->
  insideThings r1 = insideThings (refract thing normalIn r) ->
  sinTheta2Squared thing normalOut r1 <= 1 ->
  entering thing r1 = false
  /\ mediumN1 thing r1 = mediumN2 thing r
  /\ mediumN2 thing r1 = mediumN1 thing r
  /\ insideThings (refract thing normalOut r1) = insideThings r.
Proof.
  intros Hin Hle Hstack Hle1.
  rewrite (refract_stack thing normalIn r Hle), Hin in Hstack.
  assert (Hprobe : entering thing r1 = false
                   /\ mediumN1 thing r1 = mediumN2 thing r
                   /\ mediumN2 thing r1 = mediumN1 thing r).
  { unfold entering, mediumN1, mediumN2, mediumIndices in *. rewrite Hstack. simpl in *.
    destruct (Thing_eq_dec thing thing) as [_ | Hne]; [ | contradiction Hne; reflexivity].
    simpl. destruct (insideThings r) as [| top rest]; simpl in *.
    - auto.
    - destruct (Thing_eq_dec top thing); [discriminate | ]. auto. }
  destruct Hprobe as (Hout & H1 & H2).
  split; [exact Hout | ]. split; [exact H1 | ]. split; [exact H2 | ].
  rewrite (refract_stack thing normalOut r1 Hle1), Hout, Hstack. reflexivity.
Qed.

Lemma scale_one (v : Vector) : (v * 1)%T = v.
Proof. destruct v; unfold Triplet.scale; simpl. f_equal; ring. Qed.

Lemma add_scaled_zero (v n : Vector) (s : R) : (v + n * 0 * s)%T = v.
Proof.
  destruct v, n; unfold Triplet.add, Triplet.scale; simpl. f_equal; ring.
Qed.

(** X6: between two media of the same refractive index, other than 0,
    [bounceRefract] always transmits and does not bend the ray. *)
Theorem refract_equal_indices (thing : Thing) (surfaceNormal : Vector) (r : Ray) :
  mediumN1 thing r = mediumN2 thing r -> mediumN2 thing r <> 0 ->
  sinTheta2Squared thing surfaceNormal r <= 1
  /\ direction (refract thing surfaceNormal r) = direction r.
Proof.
  intros Heq Hnz.
  assert (Heta : mediumN1 thing r / mediumN2 thing r = 1)
    by (rewrite Heq; field; exact Hnz).
  set (c1 := Aux.abs (Triplet.dot (direction r) surfaceNormal)).
  assert (Hc1 : 0 <= c1) by (apply Rabs_pos).
  assert (Hsin : sinTheta2Squared thing surfaceNormal r = 1 - c1 * c1)
    by (unfold sinTheta2Squared; rewrite Heta; fold c1; ring).
  assert (Hle : sinTheta2Squared thing surfaceNormal r <= 1)
    by (rewrite Hsin; pose proof (Rle_0_sqr c1) as Hsq; unfold Rsqr in Hsq; lra).
  split; [exact Hle | ].
  rewrite (refract_transmission thing surfaceNormal r Hle). cbv zeta.
  rewrite Heta, Hsin. fold c1.
  replace (1 - (1 - c1 * c1)) with (c1 * c1) by ring.
  rewrite sqrt_square by exact Hc1.
  replace (1 * c1 - c1) with 0 by ring.
  rewrite scale_one. apply add_scaled_zero.
Qed.

(** X7: at normal incidence, the direction being the unit normal or its
    opposite, [bounceRefract] transmits the ray without bending it,
    whatever the two indices are. *)
Theorem refract_normal_incidence (thing : Thing) (surfaceNormal : Vector) (r : Ray) :
  unitLength surfaceNormal ->
  direction r = surfaceNormal \/ direction r = Triplet.neg surfaceNormal ->
  sinTheta2Squared thing surfaceNormal r <= 1
  /\ direction (refract thing surfaceNormal r) = direction r.
Proof.
  intros Hn Hd. apply length_one in Hn.
  assert (Hc : Triplet.dot (direction r) surfaceNormal = 1
               \/ Triplet.dot (direction r) surfaceNormal = -1).
  { destruct Hd as [-> | ->]; [left; exact Hn | right].
    assert (E : Triplet.dot (Triplet.neg surfaceNormal) surfaceNormal
                = - Triplet.dot surfaceNormal surfaceNormal)
      by (unfold Triplet.dot; simpl; ring).
    rewrite E, Hn. lra. }
  assert (Hc1 : Aux.abs (Triplet.dot (direction r) surfaceNormal) = 1).
  { unfold Aux.abs. destruct Hc as [-> | ->]; [apply Rabs_R1 | ].
    rewrite Rabs_left; lra. }
  assert (Hsin : sinTheta2Squared thing surfaceNormal r = 0)
    by (unfold sinTheta2Squared; rewrite Hc1; ring).
  assert (Hle : sinTheta2Squared thing surfaceNormal r <= 1) by (rewrite Hsin; lra).
  split; [exact Hle | ].
  rewrite (refract_transmission thing surfaceNormal r Hle). cbv zeta.
  rewrite Hc1, Hsin. replace (1 - 0) with 1 by ring. rewrite sqrt_1.
  set (eta := mediumN1 thing r / mediumN2 thing r).
  clear Hc Hc1 Hsin Hle.
  destruct Hd as [Hd | Hd]; rewrite Hd.
  - rewrite Hn, Rltb_false by lra.
    destruct surfaceNormal; unfold Triplet.add, Triplet.scale; simpl. f_equal; ring.
  - assert (E : Triplet.dot (Triplet.neg surfaceNormal) surfaceNormal
                = - Triplet.dot surfaceNormal surfaceNormal)
      by (unfold Triplet.dot; simpl; ring).
    rewrite E, Hn, Rltb_true by lra.
    destruct surfaceNormal; unfold Triplet.add, Triplet.scale, Triplet.neg; simpl.
    f_equal; ring.
Qed.

(** X8: a transmitted ray stays on its way through the surface.  About a
    unit normal, the component of the outgoing direction along the normal
    is [cos theta2 = sqrt (1 - sin^2 theta2)], with the sign of the
    incoming component. *)
Theorem refract_keeps_side (thing : Thing) (surfaceNormal : Vector) (r : Ray) :
  unitLength surfaceNormal ->
  sinTheta2Squared thing surfaceNormal r <= 1 ->
  Triplet.dot (direction (refract thing surfaceNormal r)) surfaceNormal
  = (if Rltb (Triplet.dot (direction r) surfaceNormal) 0 then -1 else 1)
    * sqrt (1 - sinTheta2Squared thing surfaceNormal r).
Proof.
  intros Hn Hle. apply length_one in Hn.
  rewrite (refract_transmission thing surfaceNormal r Hle). cbv zeta.
  rewrite dot_combination, Hn. unfold Aux.abs, Rltb.
  destruct (Rlt_dec (Triplet.dot (direction r) surfaceNormal) 0) as [Hneg | Hpos].
  - rewrite Rabs_left by exact Hneg. ring.
  - rewrite Rabs_right by lra. ring.
Qed.

End TransmissionProofs.

(** ** More on [traceToNextIntersection] *)

Section QueryFrame.

Context {H : Handles} {SC : Scene}.

Lemma isHit_false_nothing (r : Ray) :
  slotsPaired r -> isHit r = false -> reportsNothing r.
Proof.
  intros [HL HT] Hhit. unfold isHit in Hhit. unfold reportsNothing.
  destruct (thingHit r), (lightHit r); try discriminate.
  destruct (lightPartHit r) as [lp | ].
  { exfalso. apply (proj1 HL); [discriminate | reflexivity]. }
  destruct (thingPartHit r) as [tp | ].
  { exfalso. apply (proj1 HT); [discriminate | reflexivity]. }
  repeat split; reflexivity.
Qed.

Lemma advance_same (st : Ray * R) (r : Ray) :
  sameButHits (fst st) r ->
  direction (advance st) = direction r /\ color (advance st) = color r
  /\ depth (advance st) = depth r /\ insideThings (advance st) = insideThings r.
Proof. intros (_ & Hd & Hc & Hdp & Hi). simpl. auto. Qed.

Lemma query_keeps (r r' : Ray) :
  traceToNextIntersection r = Done r' ->
  direction r' = direction r /\ color r' = color r
  /\ depth r' = depth r /\ insideThings r' = insideThings r.
Proof.
  unfold traceToNextIntersection. destruct (depth r <? 0)%Z; [discriminate | ].
  rewrite foregroundPass_passWith.
  destruct (passWith_paired false (clearHits r, INF) (clearHits_nothing r))
    as [Hpair Hsame].
  assert (Hsame0 : sameButHits (fst (passWith (foundIn false) false (clearHits r, INF))) r)
    by (eapply sameButHits_trans; [exact Hsame | apply clearHits_same]).
  destruct (isHit _) eqn:Hhit; intros E; inversion E; subst r'; clear E.
  - apply advance_same. exact Hsame0.
  - rewrite backgroundPass_passWith. apply advance_same.
    eapply sameButHits_trans; [ | exact Hsame0].
    apply passWith_paired. apply isHit_false_nothing; assumption.
Qed.

Lemma clearHits_of_same (r1 r2 : Ray) : sameButHits r1 r2 -> clearHits r1 = clearHits r2.
Proof.
  intros (Ho & Hd & Hc & Hdp & Hi). unfold clearHits, setThingHit, setLightHit; simpl.
  rewrite Ho, Hd, Hc, Hdp, Hi. reflexivity.
Qed.

(** X9: the query writes the origin and the four hit slots and nothing
    else: direction, colour, depth and medium stack are as before; and it
    reads nothing of the hit slots it finds, so a ray that differs in
    them only gets the same answer. *)
Theorem query_frame (r r' : Ray) :
  traceToNextIntersection r = Done r' ->
  direction r' = direction r /\ color r' = color r
  /\ depth r' = depth r /\ insideThings r' = insideThings r
  /\ forall r2, sameButHits r2 r -> traceToNextIntersection r2 = Done r'.
Proof.
  intros Hq. destruct (query_keeps r r' Hq) as (Hd & Hc & Hdp & Hi).
  repeat (split; [assumption | ]).
  intros r2 Hsame. rewrite <- Hq. unfold traceToNextIntersection.
  rewrite (clearHits_of_same r2 r Hsame).
  destruct Hsame as (_ & _ & _ & -> & _). reflexivity.
Qed.

(** X10: a total miss.  When no part of any surface is struck, the query
    returns with the four hit slots null and the origin moved by [INF]
    along the direction. *)
Theorem query_total_miss (r : Ray) :
  geometric thingIntersect -> geometric lightIntersect ->
  (0 <= depth r)%Z ->
  ~ anyStruck false r -> ~ anyStruck true r ->
  traceToNextIntersection r = Done (setOrigin (pointAt r INF) (clearHits r)).
Proof.
  intros HgeoT HgeoL Hd Hfg Hbg.
  rewrite (query_background HgeoT HgeoL r Hd Hfg), backgroundPass_passWith.
  destruct (pass_outcome HgeoT HgeoL true r)
    as [_ [(Hst & _) | [(s & p & Hin & _ & _ & Hs & _) | (l & p & Hin & _ & _ & Hs & _)]]].
  - rewrite Hst. reflexivity.
  - contradiction Hbg. left. exists (s, p). split; assumption.
  - contradiction Hbg. right. exists (l, p). split; assumption.
Qed.

(** X11: the background pass.  When no foreground part is struck and
    some background part is, the surface recorded belongs to the
    background, it is struck at a positive [t] that no background part
    undercuts with a positive parameter, and the origin moves there. *)
Theorem background_when_foreground_misses (r : Ray) :
  geometric thingIntersect -> geometric lightIntersect ->
  nonNegative thingIntersect -> nonNegative lightIntersect ->
  (0 <= depth r)%Z ->
  ~ anyStruck false r -> anyStruck true r ->
  exists r' t,
    traceToNextIntersection r = Done r'
    /\ origin r' = pointAt r t
    /\ 0 < t
    /\ ((exists s p, reportsThing r' s p /\ In s things
                     /\ thingIsBackground s = true /\ In p (thingParts s)
                     /\ thingIntersect p r = t)
        \/ (exists l p, reportsLight r' l p /\ In l lights
                        /\ lightIsBackground l = true /\ In p (lightParts l)
                        /\ lightIntersect p r = t))
    /\ (forall s p, In s things -> thingIsBackground s = true -> In p (thingParts s) ->
                    0 < thingIntersect p r -> t <= thingIntersect p r)
    /\ (forall l p, In l lights -> lightIsBackground l = true -> In p (lightParts l) ->
                    0 < lightIntersect p r -> t <= lightIntersect p r).
Proof.
  intros HgeoT HgeoL HposT HposL Hd Hfg Hbg.
  exists (advance (backgroundPass (clearHits r, INF))).
  exists (snd (backgroundPass (clearHits r, INF))).
  split; [apply query_background; assumption | ].
  rewrite backgroundPass_passWith.
  destruct (pass_outcome HgeoT HgeoL true r)
    as [Hsame [(_ & Hno) | [(s & p & Hin & Hrep & Ht & Hs & HaT & HaL)
                            | (l & p & Hin & Hrep & Ht & Hs & HaT & HaL)]]].
  - contradiction.
  - split; [apply pointAt_same; exact Hsame | ]. rewrite Ht.
    destruct Hs as [Hnz _]. pose proof (HposT p r) as Hge.
    split; [lra | ].
    apply in_candidates in Hin. destruct Hin as (Hs1 & Hs2 & Hs3).
    split; [left; exists s, p; repeat split; solve [apply Hrep | assumption] | ].
    split.
    + intros s' p' H1 H2 H3 Hpos. apply (HaT (s', p')).
      * apply in_candidates. auto.
      * unfold thingParam; simpl. lra.
    + intros l' p' H1 H2 H3 Hpos. apply (HaL (l', p')).
      * apply in_candidates. auto.
      * unfold lightParam; simpl. lra.
  - split; [apply pointAt_same; exact Hsame | ]. rewrite Ht.
    destruct Hs as [Hnz _]. pose proof (HposL p r) as Hge.
    split; [lra | ].
    apply in_candidates in Hin. destruct Hin as (Hs1 & Hs2 & Hs3).
    split; [right; exists l, p; repeat split; solve [apply Hrep | assumption] | ].
    split.
    + intros s' p' H1 H2 H3 Hpos. apply Rlt_le. apply (HaT (s', p')).
      * apply in_candidates. auto.
      * unfold thingParam; simpl. lra.
    + intros l' p' H1 H2 H3 Hpos. apply (HaL (l', p')).
      * apply in_candidates. auto.
      * unfold lightParam; simpl. lra.
Qed.

End QueryFrame.

(** ** More on [Vector::random] and [Ray::russianRoulette] *)

Section SamplingProofs.

Context {H : Handles} {SC : Scene}.

Lemma rejected_false_ball (x y z : R) :
  rejected x y z = false -> x * x + y * y + z * z <= 1.
Proof.
  unfold rejected. rewrite orb_false_iff. intros [Hball _].
  unfold Rltb in Hball. destruct (Rlt_dec 1 (x * x + y * y + z * z)); [discriminate | lra].
Qed.

Lemma sampleLoop_rejected (spins : nat) (g g' : Rand) (x y z : R) :
  sampleLoop spins g = Some (x, y, z, g') -> rejected x y z = false.
Proof.
  revert g. induction spins as [| spins IH]; intros g; simpl.
  - discriminate.
  - destruct (drawSample g) as [[[x0 y0] z0] g0].
    destruct (rejected x0 y0 z0) eqn:Hrej.
    + apply IH.
    + intros E; inversion E; subst. exact Hrej.
Qed.

Lemma orient_cosine (normal : Vector) (x y z : R) :
  Triplet.dot normal normal = 1 ->
  Triplet.dot (orient normal x y z) normal = z / sqrt (x * x + y * y + z * z).
Proof.
  intros Hn. unfold orient.
  pose proof (tangential_frame normal Hn) as Hframe. cbv zeta in Hframe.
  destruct (if Triplet.eqb UnitZ normal || Triplet.eqb (Triplet.neg UnitZ) normal
            then _ else _) as [tX tY].
  simpl in Hframe. destruct Hframe as (Hxx & Hyy & Hxy & Hxn & Hyn).
  destruct (frame_combination tX tY normal x y z Hxx Hyy Hn Hxy Hxn Hyn) as [Hlen Hdot].
  rewrite normalize_dot, Hdot. unfold Triplet.length. rewrite Hlen. reflexivity.
Qed.

(** X12: the sample that ends the rejection loop lies in the upper half
    of the unit ball, away from its centre, and the cosine of the angle
    between the direction returned and the unit normal is the height [z] of
    the sample over its length. *)
Theorem random_cosine (spins : nat) (normal : Vector) (g g' : Rand) (x y z : R) :
  randInRange -> unitLength normal ->
  sampleLoop spins g = Some (x, y, z, g') ->
  0 < x * x + y * y + z * z <= 1
  /\ 0 <= z <= 1
  /\ exists d, random spins normal g = Some (d, g')
               /\ Triplet.dot d normal = z / sqrt (x * x + y * y + z * z).
Proof.
  intros Hrange Hn Hloop. apply length_one in Hn.
  destruct (sampleLoop_accepts _ _ _ _ _ _ Hrange Hloop) as [Hpos Hz].
  pose proof (rejected_false_ball _ _ _ (sampleLoop_rejected _ _ _ _ _ _ Hloop)) as Hball.
  split; [lra | ]. split; [split; [exact Hz | nra] | ].
  exists (orient normal x y z). split.
  - unfold random. rewrite Hloop. reflexivity.
  - apply orient_cosine. exact Hn.
Qed.

Lemma maxColor_scaled (r : Ray) (k : R) :
  0 <= k -> maxColor (setColor (color r * k)%T r) = maxColor r * k.
Proof.
  intros Hk. unfold maxColor, Aux.max; simpl.
  rewrite !(Rmult_comm _ k), !RmaxRmult by exact Hk. reflexivity.
Qed.

(** X13: what the roulette leaves alive is never dimmer than [rrLimit].  For
    a ray whose largest colour component [m] is positive and that the
    roulette does not kill, the largest component is afterwards the larger
    of [m] and [rrLimit]. *)
Theorem russianRoulette_survivor (r : Ray) (g : Rand) :
  0 < maxColor r ->
  fst (fst (russianRoulette r g)) = false ->
  maxColor (snd (fst (russianRoulette r g))) = Rmax (maxColor r) rrLimit.
Proof.
  intros Hm. unfold russianRoulette, Rleb.
  destruct (Rle_dec rrLimit (maxColor r)) as [Hle | Hgt]; simpl.
  - intros _. rewrite Rmax_left by exact Hle. reflexivity.
  - destruct (rand g) as [n g1]. destruct (Rltb _ _); simpl; [discriminate | ].
    intros _. rewrite maxColor_scaled.
    + rewrite Rmax_right by lra. field. lra.
    + apply Rlt_le, Rdiv_lt_0_compat; lra.
Qed.

End SamplingProofs.

(** ** Invariants of a whole path *)

Section TraceInvariant.

Context {H : Handles} {SC : Scene}.

Variable spins : nat.
Variable Q : Ray -> Ray -> Prop.
Hypothesis Qtrans : forall r1 r2 r3, Q r1 r2 -> Q r2 r3 -> Q r1 r3.
Hypothesis Qframe :
  forall r r', depth r' = depth r -> insideThings r' = insideThings r -> Q r r'.

Lemma russianRoulette_stack (r : Ray) (g : Rand) :
  insideThings (snd (fst (russianRoulette r g))) = insideThings r.
Proof. rewrite russianRoulette_fields. reflexivity. Qed.

Lemma handsOn_id : handsOn (fun res => res).
Proof. intros x c r' g' E. exists c. exact E. Qed.

Lemma stepsWithin_from (body : Tracer -> Result (RGB * Ray * Rand)) (r r1 : Ray) :
  Q r r1 -> stepsWithin Q body r1 -> stepsWithin Q body r.
Proof.
  intros Hq [(res & Hall & Hres) | (r2 & g2 & k & Hq2 & Hk & Hall)].
  - left. exists res. split; [exact Hall | ].
    intros c r' g' E. eapply Qtrans; [exact Hq | eapply Hres; exact E].
  - right. exists r2, g2, k. split; [eapply Qtrans; eassumption | ]. split; assumption.
Qed.

Ltac ends_with_ray :=
  left; eexists; split; [intros self; reflexivity | ];
  let E := fresh "E" in
  intros ? ? ? E; inversion E; subst; apply Qframe; simpl; congruence.

Ltac ends_without_ray :=
  left; eexists; split; [intros self; reflexivity | ]; intros ? ? ? E; discriminate E.

(** The query, then the recursive call, whose result [k] hands on. *)
Lemma query_call_steps (r0 r2 : Ray) (g : Rand)
      (k : Result (RGB * Ray * Rand) -> Result (RGB * Ray * Rand)) :
  Q r0 r2 -> handsOn k ->
  stepsWithin Q (fun self => ' r3 <- traceToNextIntersection r2 ;; k (self r3 g)) r0.
Proof.
  intros Hq Hk. destruct (traceToNextIntersection r2) as [r3 | | | ] eqn:Hquery;
    cbn [bind].
  - right. exists r3, g, k. split; [ | split; [exact Hk | intros self; reflexivity]].
    eapply Qtrans; [exact Hq | ].
    destruct (query_keeps r2 r3 Hquery) as (_ & _ & Hd & Hi). apply Qframe; assumption.
  - ends_without_ray.
  - ends_without_ray.
  - ends_without_ray.
Qed.

Lemma bounceReflect_steps (r : Ray) (g : Rand) :
  stepsWithin Q (fun self => bounceReflect self r g) r.
Proof.
  unfold bounceReflect. destruct (depth r <? 1)%Z; [ends_with_ray | ].
  destruct (russianRoulette_depth r g) as (Hd & _).
  pose proof (russianRoulette_stack r g) as Hi.
  destruct (russianRoulette r g) as [[killed r1] g1]. simpl in Hd, Hi.
  destruct killed; [ends_with_ray | ].
  destruct (thingPartHit r1) as [part | ]; cbn [deref bind]; [ | ends_without_ray].
  apply (query_call_steps r _ g1 (fun res => res)); [ | apply handsOn_id].
  apply Qframe; simpl; assumption.
Qed.

Lemma bounceMetallic_steps (r : Ray) (g : Rand) :
  stepsWithin Q (fun self => bounceMetallic self r g) r.
Proof.
  unfold bounceMetallic.
  destruct (thingHit r) as [thing | ]; cbn [deref bind]; [ | ends_without_ray].
  destruct (mediumIndices thing r) as [[into n1] n2].
  destruct (thingPartHit r) as [part | ]; cbn [deref bind]; [ | ends_without_ray].
  set (r0 := paint _ (reflect _ r)).
  assert (Hd0 : depth r0 = depth r) by reflexivity.
  assert (Hi0 : insideThings r0 = insideThings r) by reflexivity.
  destruct (depth r0 <? 1)%Z; [ends_with_ray | ].
  destruct (russianRoulette_depth r0 g) as (Hd & _).
  pose proof (russianRoulette_stack r0 g) as Hi.
  destruct (russianRoulette r0 g) as [[killed r1] g1]. simpl in Hd, Hi.
  destruct killed; [ends_with_ray | ].
  apply (query_call_steps r _ g1 (fun res => res)); [ | apply handsOn_id].
  apply Qframe; congruence.
Qed.

Lemma bounceDiffuse_steps (r : Ray) (g : Rand) :
  stepsWithin Q (fun self => bounceDiffuse spins self r g) r.
Proof.
  unfold bounceDiffuse.
  destruct (thingPartHit r) as [part | ]; cbn [deref bind]; [ | ends_without_ray].
  destruct (getDirectLight _ _ g) as [directLight g0].
  destruct (depth r <? 1)%Z; [ends_with_ray | ].
  destruct (russianRoulette_depth r g0) as (Hd & _).
  pose proof (russianRoulette_stack r g0) as Hi.
  destruct (russianRoulette r g0) as [[killed r1] g1]. simpl in Hd, Hi.
  destruct killed; [ends_with_ray | ].
  destruct (random spins _ g1) as [[d g2] | ]; [ | ends_without_ray].
  apply (query_call_steps r _ g2
           (fun res => ' (c, r3, g3) <- res ;;
                       Done ((Triplet.tint (color r) directLight + c)%T, r3, g3))).
  - apply Qframe; simpl; assumption.
  - intros x c r' g' E. destruct x as [[[c0 r0] g0'] | | | ]; try discriminate E.
    simpl in E. inversion E; subst. exists c0. reflexivity.
Qed.

Lemma bounceRefract_steps (r : Ray) (g : Rand) :
  (forall thing n r', thingHit r = Some thing -> Q r' (refract thing n r')) ->
  stepsWithin Q (fun self => bounceRefract self r g) r.
Proof.
  intros Hrefract. unfold bounceRefract. destruct (depth r <? 1)%Z; [ends_with_ray | ].
  destruct (russianRoulette_depth r g) as (Hd & Ht & _).
  pose proof (russianRoulette_stack r g) as Hi.
  destruct (russianRoulette r g) as [[killed r1] g1]. simpl in Hd, Ht, Hi.
  destruct killed; [ends_with_ray | ].
  destruct (thingHit r1) as [thing | ] eqn:Hthing; cbn [deref bind];
    [ | ends_without_ray].
  destruct (thingPartHit r1) as [part | ]; cbn [deref bind]; [ | ends_without_ray].
  apply (query_call_steps r _ g1 (fun res => res)); [ | apply handsOn_id].
  eapply Qtrans; [apply (Qframe r r1); assumption | ].
  apply Hrefract. congruence.
Qed.

Hypothesis Qdecrement : forall r, (0 <= depth r)%Z -> Q r (setDepth (depth r - 1) r).
Hypothesis Qrefract :
  forall thing g, fst (interact thing g) = REFRACT ->
                  forall n r, Q r (refract thing n r).

Lemma traceBody_steps (r : Ray) (g : Rand) :
  stepsWithin Q (fun self => traceBody spins self r g) r.
Proof.
  unfold traceBody.
  destruct (Triplet.eqb Black (color r) || (depth r <? 0)%Z) eqn:Hdead;
    [ends_with_ray | ].
  apply orb_false_iff in Hdead. destruct Hdead as [_ Hdepth].
  apply Z.ltb_ge in Hdepth.
  destruct (lightHit r) as [light | ]; [ends_with_ray | ].
  destruct (thingHit r) as [thing | ] eqn:Hthing; [ | ends_with_ray].
  set (r1 := setDepth _ _).
  assert (Hq1 : Q r r1).
  { eapply Qtrans; [apply (Qframe r (paint (getColor thing) r)); reflexivity | ].
    apply Qdecrement. exact Hdepth. }
  destruct (interact thing g) as [material g1] eqn:Hmat.
  apply (stepsWithin_from _ r r1 Hq1). destruct material.
  - apply bounceDiffuse_steps.
  - apply bounceMetallic_steps.
  - apply bounceReflect_steps.
  - apply bounceRefract_steps. intros thing' n r' Hhit.
    assert (thing' = thing) by (simpl in Hhit; congruence). subst thing'.
    apply (Qrefract thing g); [rewrite Hmat; reflexivity].
Qed.

(** Whatever [trace] returns, the ray it leaves is related by [Q] to the
    ray it was called on. *)
Lemma trace_invariant (calls : nat) :
  forall r g c r' g', trace spins calls r g = Done (c, r', g') -> Q r r'.
Proof.
  induction calls as [| calls IH]; intros r g c r' g'; rewrite trace_unfold;
    destruct (traceBody_steps r g)
      as [(res & Hall & Hres) | (r1 & g1 & k & Hq1 & Hk & Hall)];
    rewrite Hall; intros E.
  - eapply Hres; exact E.
  - apply Hk in E. destruct E as [c0 E]. discriminate E.
  - eapply Hres; exact E.
  - apply Hk in E. destruct E as [c0 E].
    eapply Qtrans; [exact Hq1 | eapply IH; exact E].
Qed.

End TraceInvariant.

Section PathTheorems.

Context {H : Handles} {SC : Scene}.

(** X14: along a whole path the depth only goes down, and from a depth
    that is not negative it never goes below -1: whatever [trace] returns,
    the ray it leaves has a depth between -1 and the one it started with. *)
Theorem trace_depth_range (spins calls : nat) (r r' : Ray) (g g' : Rand) (c : RGB) :
  trace spins calls r g = Done (c, r', g') ->
  (depth r' <= depth r)%Z /\ ((-1 <= depth r)%Z -> (-1 <= depth r')%Z).
Proof.
  apply (trace_invariant spins
           (fun r1 r2 => (depth r2 <= depth r1)%Z
                         /\ ((-1 <= depth r1)%Z -> (-1 <= depth r2)%Z))).
  - intros r1 r2 r3 [H12 H12'] [H23 H23']. split; [lia | auto].
  - intros r1 r2 Hd _. rewrite Hd. split; [lia | auto].
  - intros r1 Hpos. simpl. split; lia.
  - intros thing g0 _ n r1. rewrite refract_depth. split; [lia | auto].
Qed.

(** X15: only a refraction touches the medium stack.  In a scene where
    no thing ever behaves as a dielectric, whatever [trace] returns, the
    ray it leaves has the medium stack it started with. *)
Theorem trace_keeps_stack (spins calls : nat) (r r' : Ray) (g g' : Rand) (c : RGB) :
  neverRefracts ->
  trace spins calls r g = Done (c, r', g') ->
  insideThings r' = insideThings r.
Proof.
  intros Hnever.
  apply (trace_invariant spins (fun r1 r2 => insideThings r2 = insideThings r1)).
  - intros r1 r2 r3 H12 H23. congruence.
  - intros r1 r2 _ Hi. exact Hi.
  - intros r1 _. reflexivity.
  - intros thing g0 Hmat. contradiction (Hnever thing g0).
Qed.

End PathTheorems.

(** ** Where a path ends *)

Section PathEnds.

Context {H : Handles} {SC : Scene}.

Lemma Triplet_eqb_false (a b : Triplet) : a <> b -> Triplet.eqb a b = false.
Proof.
  intros Hne. destruct (Triplet.eqb a b) eqn:E; [ | reflexivity].
  exfalso. apply Hne. unfold Triplet.eqb in E.
  rewrite !andb_true_iff, !Reqb_spec in E. destruct E as [[Hx Hy] Hz].
  destruct a, b; simpl in *. congruence.
Qed.

(** X16: an emitter or the sky ends the path at once.  After a query on a
    ray whose colour is not black, [trace] returns the colour times the
    emission of the light recorded, or times the colour of the sky when
    nothing is recorded; it does so whatever depth is left, without a
    recursive call and without drawing a random number. *)
Theorem trace_ends_after_query (spins calls : nat) (r r' : Ray) (g : Rand) :
  traceToNextIntersection r = Done r' ->
  color r <> Black ->
  (forall light, lightHit r' = Some light ->
                 trace spins calls r' g
                 = Done (Triplet.tint (color r) (getEmission light),
                         paint (getEmission light) r', g))
  /\ (lightHit r' = None -> thingHit r' = None ->
      trace spins calls r' g = Done (Triplet.tint (color r) sky, paint sky r', g)).
Proof.
  intros Hq Hcolor. pose proof (query_depth r r' Hq) as Hd.
  destruct (query_keeps r r' Hq) as (_ & Hc & Hdp & _).
  assert (Halive : Triplet.eqb Black (color r') || (depth r' <? 0)%Z = false).
  { rewrite Hc, Hdp, Triplet_eqb_false by congruence.
    destruct (Z.ltb_spec (depth r) 0); [lia | reflexivity]. }
  split.
  - intros light Hlight. rewrite trace_unfold. unfold traceBody.
    rewrite Halive, Hlight. simpl. rewrite Hc. reflexivity.
  - intros Hlight Hthing. rewrite trace_unfold. unfold traceBody.
    rewrite Halive, Hlight, Hthing. simpl. rewrite Hc. reflexivity.
Qed.

(** X17: the last bounce.  On a thing hit at depth 0 the path ends without
    a recursive call and without a roulette: a diffuse surface still returns
    the colour of the ray, painted by the thing, times the direct light at
    the hit point; the three other materials return black.  The depth is
    left at -1. *)
Theorem trace_last_bounce (spins calls : nat) (r : Ray) (g g1 : Rand)
        (thing : Thing) (part : ThingPart) (material : Material) :
  color r <> Black -> depth r = 0%Z ->
  lightHit r = None -> thingHit r = Some thing -> thingPartHit r = Some part ->
  interact thing g = (material, g1) ->
  exists r',
    depth r' = (-1)%Z
    /\ trace spins calls r g
       = match material with
         | DIFFUSE =>
             let (directLight, g2) :=
               getDirectLight (origin r) (getNormal part (origin r)) g1 in
             Done (Triplet.tint (Triplet.tint (color r) (getColor thing)) directLight,
                   r', g2)
         | _ => Done (Black, r', g1)
         end.
Proof.
  intros Hcolor Hdepth Hlight Hthing Hpart Hmat.
  rewrite trace_unfold. unfold traceBody.
  rewrite Triplet_eqb_false by congruence. rewrite Hdepth, Hlight, Hthing, Hmat.
  change (0 <? 0)%Z with false. cbn [orb].
  set (r1 := setDepth _ _).
  assert (Hd1 : depth r1 = (-1)%Z) by (unfold r1; simpl; rewrite Hdepth; reflexivity).
  assert (Hp1 : thingPartHit r1 = Some part) by exact Hpart.
  assert (Ht1 : thingHit r1 = Some thing) by exact Hthing.
  destruct material.
  - exists r1. split; [exact Hd1 | ].
    unfold bounceDiffuse. rewrite Hp1. cbn [deref bind].
    change (origin r1) with (origin r).
    destruct (getDirectLight _ _ g1) as [directLight g2].
    rewrite Hd1. reflexivity.
  - unfold bounceMetallic. rewrite Ht1, Hp1. cbn [deref bind].
    destruct (mediumIndices thing r1) as [[into n1] n2].
    set (r2 := paint _ (reflect _ r1)).
    assert (Hd2 : depth r2 = (-1)%Z) by exact Hd1.
    exists r2. split; [exact Hd2 | ]. rewrite Hd2. reflexivity.
  - exists r1. split; [exact Hd1 | ]. unfold bounceReflect. rewrite Hd1. reflexivity.
  - exists r1. split; [exact Hd1 | ]. unfold bounceRefract. rewrite Hd1. reflexivity.
Qed.

End PathEnds.

(** ** Ties among the things of a pass *)

Section FirstWins.

Context {H : Handles} {SC : Scene}.

Lemma scanCandidates_first {S P : Type} (intersect : P -> Ray -> R)
      (found : S -> P -> Ray -> Ray) (keeps : Ray -> Prop) :
  geometric intersect ->
  (forall s p r, sameButHits (found s p r) r) ->
  (forall s p r, keeps r -> keeps (found s p r)) ->
  forall (pre post : list (S * P)) (c : S * P) (r : Ray) (nearestT : R),
    keeps r ->
    nearer (intersect (snd c) r) nearestT = true ->
    strictlyNearest (intersect (snd c) r) (fun c' => intersect (snd c') r) pre ->
    nearestAmong (intersect (snd c) r) (fun c' => intersect (snd c') r) post ->
    exists r0,
      sameButHits r0 r /\ keeps r0
      /\ scanCandidates intersect found (pre ++ c :: post) (r, nearestT)
         = (found (fst c) (snd c) r0, intersect (snd c) r).
Proof.
  intros Hgeo Hfound Hkeeps pre post c r nearestT Hk Hn Hpre Hpost.
  apply nearer_spec in Hn. destruct Hn as [Hnz Hlt].
  rewrite scanCandidates_app.
  assert (Hafter : exists r1 t1,
             scanCandidates intersect found pre (r, nearestT) = (r1, t1)
             /\ sameButHits r1 r /\ keeps r1 /\ intersect (snd c) r < t1).
  { destruct (scanCandidates_cases intersect found keeps Hgeo Hfound Hkeeps
                pre r nearestT Hk)
      as [[Hidle _] | (s' & p' & r0 & Hin & Hsame & Hk0 & Hscan & Hn')].
    - exists r, nearestT. repeat split; auto using sameButHits_refl.
    - exists (found s' p' r0), (intersect p' r). split; [exact Hscan | ].
      split; [eapply sameButHits_trans; [apply Hfound | exact Hsame] | ].
      split; [apply Hkeeps; exact Hk0 | ].
      apply nearer_spec in Hn'. apply (Hpre (s', p') Hin). simpl. tauto. }
  destruct Hafter as (r1 & t1 & Hscan1 & Hsame1 & Hk1 & Hlt1).
  rewrite Hscan1. simpl.
  rewrite (geometric_same intersect (snd c) r1 r Hgeo Hsame1).
  assert (Hn1 : nearer (intersect (snd c) r) t1 = true)
    by (apply nearer_spec; split; assumption).
  rewrite Hn1. exists r1. split; [exact Hsame1 | ]. split; [exact Hk1 | ].
  destruct (scanCandidates_cases intersect found keeps Hgeo Hfound Hkeeps
              post (found (fst c) (snd c) r1) (intersect (snd c) r)
              (Hkeeps _ _ _ Hk1))
    as [[Hidle _] | (s' & p' & r0 & Hin & _ & _ & _ & Hn')].
  - exact Hidle.
  - exfalso. apply nearer_spec in Hn'. destruct Hn' as [Hnz' Hlt'].
    rewrite (geometric_same intersect p' _ r Hgeo
               (sameButHits_trans _ _ _ (Hfound _ _ _) Hsame1)) in Hnz', Hlt'.
    specialize (Hpost (s', p') Hin Hnz'). simpl in Hpost. lra.
Qed.

(** X18: among the things of the pass that decides, the first one
    visited wins a tie.  When a part of a thing is struck at a parameter
    strictly below that of every part visited before it, and not above
    that of any part visited after it nor of any light of the pass, it is
    this part, with its thing, that the query records. *)
Theorem first_thing_wins (r : Ray) (background : bool)
        (pre post : list (Thing * ThingPart)) (s : Thing) (p : ThingPart) :
  geometric thingIntersect -> geometric lightIntersect ->
  (0 <= depth r)%Z ->
  (background = true -> ~ anyStruck false r) ->
  thingCandidates background = pre ++ (s, p) :: post ->
  struck (thingIntersect p r) ->
  strictlyNearest (thingIntersect p r) (thingParam r) pre ->
  nearestAmong (thingIntersect p r) (thingParam r) post ->
  nearestAmong (thingIntersect p r) (lightParam r) (lightCandidates background) ->
  exists r',
    traceToNextIntersection r = Done r'
    /\ reportsThing r' s p
    /\ origin r' = pointAt r (thingIntersect p r).
Proof.
  intros HgeoT HgeoL Hd Hfg Hsplit Hs Hpre Hpost Hlights.
  assert (Hin : In (s, p) (thingCandidates background))
    by (rewrite Hsplit; apply in_or_app; right; left; reflexivity).
  assert (Hany : anyStruck background r)
    by (left; exists (s, p); split; [exact Hin | exact Hs]).
  assert (Hq : traceToNextIntersection r
               = Done (advance (passWith (foundIn background) background
                                         (clearHits r, INF)))).
  { destruct background.
    - apply query_background; auto.
    - apply query_foreground; auto. }
  eexists. split; [exact Hq | ].
  assert (HT : forall q, thingIntersect q (clearHits r) = thingIntersect q r)
    by (intros q; apply geometric_same; [exact HgeoT | apply clearHits_same]).
  set (keepsT := fun r0 : Ray => lightHit r0 = None /\ lightPartHit r0 = None).
  destruct (scanCandidates_first thingIntersect (foundIn background) keepsT HgeoT)
    with (pre := pre) (post := post) (c := (s, p)) (r := clearHits r) (nearestT := INF)
    as (r0 & Hsame0 & Hk0 & Hscan).
  - intros s' p' r'. destruct background;
      [apply foundBackgroundThing_same | apply foundThing_same].
  - intros s' p' r' [Hl Hlp]. unfold keepsT. destruct background; simpl; auto.
  - split; reflexivity.
  - simpl. rewrite HT. apply struck_nearer. exact Hs.
  - intros c Hc Hnz. simpl in *. rewrite !HT in *. apply (Hpre c Hc). exact Hnz.
  - intros c Hc Hnz. simpl in *. rewrite !HT in *. apply (Hpost c Hc). exact Hnz.
  - simpl in Hscan. rewrite HT in Hscan.
    unfold passWith. rewrite !scanSurfaces_candidates.
    fold (thingCandidates background). fold (lightCandidates background).
    rewrite Hsplit, Hscan.
    set (r1 := foundIn background s p r0).
    assert (Hsame1 : sameButHits r1 r).
    { eapply sameButHits_trans; [ | eapply sameButHits_trans;
                                    [exact Hsame0 | apply clearHits_same]].
      unfold r1. destruct background;
        [apply foundBackgroundThing_same | apply foundThing_same]. }
    assert (Hrep1 : reportsThing r1 s p).
    { unfold r1. destruct background;
        [apply foundBackgroundThing_slots | apply foundThing_slots]; exact Hk0. }
    destruct (scanCandidates_cases lightIntersect foundLight (fun _ => True) HgeoL
                foundLight_same (fun _ _ _ _ => I)
                (lightCandidates background) r1 (thingIntersect p r) I)
      as [[Hidle _] | (l & q & r2 & HinL & _ & _ & _ & HnL)].
    + rewrite Hidle. split; [exact Hrep1 | ].
      unfold advance; simpl. apply pointAt_same. exact Hsame1.
    + exfalso. apply nearer_spec in HnL. destruct HnL as [Hnz Hlt].
      rewrite (geometric_same lightIntersect q r1 r HgeoL Hsame1) in Hnz, Hlt.
      specialize (Hlights (l, q) HinL Hnz). unfold lightParam in Hlights.
      simpl in Hlights. lra.
Qed.

End FirstWins.

(** ** The cost of a bounce *)

Section BounceCost.

Context {H : Handles} {SC : Scene}.

(** A call of [trace] on a live ray that has a thing recorded goes
    through a bounce: the ray it leaves has lost one unit of depth at
    least. *)
Lemma trace_bounce_costs (spins calls : nat) (r r' : Ray) (g g' : Rand) (c : RGB)
      (thing : Thing) :
  color r <> Black -> (0 <= depth r)%Z ->
  lightHit r = None -> thingHit r = Some thing ->
  trace spins calls r g = Done (c, r', g') ->
  (depth r' <= depth r - 1)%Z.
Proof.
  intros Hcolor Hdepth Hlight Hthing.
  set (Q := fun r1 r2 : Ray => (depth r2 <= depth r1)%Z).
  assert (Qtrans : forall r1 r2 r3, Q r1 r2 -> Q r2 r3 -> Q r1 r3)
    by (unfold Q; intros; lia).
  assert (Qframe : forall r1 r2, depth r2 = depth r1 ->
                                insideThings r2 = insideThings r1 -> Q r1 r2)
    by (unfold Q; intros; lia).
  assert (Qdec : forall r1, (0 <= depth r1)%Z -> Q r1 (setDepth (depth r1 - 1) r1))
    by (unfold Q; intros; simpl; lia).
  assert (Qrefr : forall th n r1, Q r1 (refract th n r1))
    by (unfold Q; intros; rewrite refract_depth; lia).
  rewrite trace_unfold. unfold traceBody.
  rewrite Triplet_eqb_false by congruence.
  destruct (Z.ltb_spec (depth r) 0) as [Hneg | _]; [lia | ]. cbn [orb].
  rewrite Hlight, Hthing.
  set (r1 := setDepth _ _).
  assert (Hd1 : depth r1 = (depth r - 1)%Z) by reflexivity.
  destruct (interact thing g) as [material g1].
  set (self := match calls with
               | O => fun _ _ => OutOfCalls
               | S calls' => trace spins calls'
               end).
  assert (Hself : forall r2 g2 c0, self r2 g2 = Done (c0, r', g') -> Q r2 r').
  { intros r2 g2 c0 E. unfold self in E. destruct calls as [| calls']; [discriminate E | ].
    apply (trace_invariant spins Q Qtrans Qframe Qdec (fun th _ _ => Qrefr th)
             calls' r2 g2 c0 r' g' E). }
  assert (Hsteps : forall body, stepsWithin Q body r1 ->
                                body self = Done (c, r', g') -> Q r1 r').
  { intros body [(res & Hall & Hres) | (r2 & g2 & k & Hq2 & Hk & Hall)] E;
      rewrite Hall in E.
    - eapply Hres; exact E.
    - apply Hk in E. destruct E as [c0 E].
      eapply Qtrans; [exact Hq2 | eapply Hself; exact E]. }
  intros E. rewrite <- Hd1. change (Q r1 r').
  destruct material.
  - apply (Hsteps (fun s => bounceDiffuse spins s r1 g1));
      [apply bounceDiffuse_steps; assumption | exact E].
  - apply (Hsteps (fun s => bounceMetallic s r1 g1));
      [apply bounceMetallic_steps; assumption | exact E].
  - apply (Hsteps (fun s => bounceReflect s r1 g1));
      [apply bounceReflect_steps; assumption | exact E].
  - apply (Hsteps (fun s => bounceRefract s r1 g1));
      [apply bounceRefract_steps; [assumption | assumption | ] | exact E].
    intros th n r2 _. apply Qrefr.
Qed.

End BounceCost.

(** * The small scene, evaluated *)

Import Demo.

Ltac vsimpl :=
  unfold Triplet.dot, Triplet.add, Triplet.sub, Triplet.scale, Triplet.tint, Triplet.neg,
    UnitX, UnitY, UnitZ, White, Black in *; simpl in *.

Lemma planeHit_value (h t : R) (r : Ray) :
  Triplet.z (direction r) <> 0 ->
  h - Triplet.z (origin r) = t * Triplet.z (direction r) ->
  planeHit h r = if Rltb 0 t then t else 0.
Proof.
  intros Hz Ht. unfold planeHit. rewrite Reqb_false by exact Hz.
  replace ((h - Triplet.z (origin r)) / Triplet.z (direction r)) with t; [reflexivity | ].
  rewrite Ht. field. exact Hz.
Qed.

Lemma planeHit_geometric (h : R) (r1 r2 : Ray) :
  origin r1 = origin r2 -> direction r1 = direction r2 -> planeHit h r1 = planeHit h r2.
Proof. intros Ho Hd. unfold planeHit. rewrite Ho, Hd. reflexivity. Qed.

Lemma planeHit_nonNegative (h : R) (r : Ray) : 0 <= planeHit h r.
Proof.
  unfold planeHit. destruct (Reqb _ _); [lra | ].
  destruct (Rltb 0 _) eqn:Hpos; [ | lra]. apply Rltb_spec in Hpos. lra.
Qed.

Lemma demo_geometric : geometric thingIntersect /\ geometric lightIntersect.
Proof. split; intros p r1 r2 Ho Hd; apply planeHit_geometric; assumption. Qed.

Lemma demo_nonNegative : nonNegative thingIntersect /\ nonNegative lightIntersect.
Proof. split; intros p r; apply planeHit_nonNegative. Qed.

Lemma demo_indices_positive : forall t : Thing, 0 < getRefractiveIndex t.
Proof. intros t. simpl. destruct (Nat.eqb t glass); lra. Qed.

Lemma unitLength_UnitZ : unitLength UnitZ.
Proof. apply length_one. vsimpl. lra. Qed.

(** From the origin, straight up: the glass and the lamp at 1, the
    backdrop at 1/2. *)
Lemma planeHit_rayUp (h : R) (r : Ray) :
  origin r = origin rayUp -> direction r = direction rayUp -> 0 < h -> planeHit h r = h.
Proof.
  intros Ho Hd Hh. rewrite (planeHit_value h h r).
  - rewrite Rltb_true by exact Hh. reflexivity.
  - rewrite Hd. simpl. lra.
  - rewrite Ho, Hd. simpl. lra.
Qed.

Lemma demo_rayUp_struck : anyStruck false rayUp.
Proof.
  left. exists (glass, glass). split; [left; reflexivity | ].
  simpl. rewrite planeHit_rayUp by (reflexivity || lra).
  unfold struck; simpl. split; lra.
Qed.

Lemma demo_query_rayUp :
  traceToNextIntersection rayUp
  = Done (setOrigin (Triplet.mk 0 0 1) (foundThing glass glass rayUp)).
Proof.
  unfold traceToNextIntersection. change (depth rayUp <? 0)%Z with false. cbv iota.
  assert (Hfg : foregroundPass (clearHits rayUp, INF)
                = (foundThing glass glass rayUp, 1)).
  { unfold foregroundPass; simpl.
    rewrite (planeHit_rayUp 1 (clearHits rayUp)) by (reflexivity || lra).
    unfold nearer at 2 3 4. Rdecide. simpl.
    rewrite (planeHit_rayUp 1) by (reflexivity || lra).
    unfold nearer. Rdecide. reflexivity. }
  rewrite Hfg. simpl. unfold advance, pointAt, setOrigin. vsimpl.
  do 2 f_equal. f_equal; lra.
Qed.

(** ** Scenario S4: total internal reflection *)

Lemma demo_S4_sin : sinTheta2Squared glass UnitZ rayS4 = 27/16.
Proof.
  unfold sinTheta2Squared, mediumN1, mediumN2, mediumIndices, Aux.abs. vsimpl.
  replace (sqrt 3 / 2 * 0 + 0 * 0 + 1 / 2 * 1) with (1/2) by lra.
  rewrite Rabs_right by lra. field.
Qed.

Lemma demo_S4_refract :
  refract glass UnitZ rayS4 = setDirection (Triplet.mk (sqrt 3 / 2) 0 (3/2)) rayS4.
Proof.
  destruct (refract_total_reflection glass UnitZ rayS4) as [Hd Hs].
  { rewrite demo_S4_sin. lra. }
  pose proof (refract_depth glass UnitZ rayS4) as Hdepth.
  pose proof demo_S4_sin as Hsin. unfold sinTheta2Squared in Hsin.
  unfold refract. rewrite mediumIndices_eq, Hsin. Rdecide.
  unfold setDirection. vsimpl. f_equal. f_equal; lra.
Qed.

Lemma demo_S4_mirrored :
  mirrored (direction rayS4) UnitZ = Triplet.mk (sqrt 3 / 2) 0 (-1/2).
Proof. unfold mirrored. vsimpl. f_equal; lra. Qed.

(** C1 fails on the code: in scenario S4 (sin^2 theta2 = 1.6875) the whole
    of [bounceRefract] runs, the medium stack is left as it was, but the
    direction it leaves is [d + 2 (d.N) N = (sqrt 3 / 2, 0, 3/2)], not the
    mirror image [d - 2 (d.N) N = (sqrt 3 / 2, 0, -1/2)] that [bounceReflect]
    and [bounceMetallic] compute. *)
Theorem bounceRefract_S4_not_mirrored :
  1 < sinTheta2Squared glass UnitZ rayS4
  /\ exists c r',
      bounceRefract (trace 1 0) rayS4 tt = Done (c, r', tt)
      /\ insideThings r' = insideThings rayS4
      /\ direction r' = Triplet.mk (sqrt 3 / 2) 0 (3/2)
      /\ direction (reflect UnitZ rayS4) = mirrored (direction rayS4) UnitZ
      /\ direction r' <> mirrored (direction rayS4) UnitZ.
Proof.
  split; [rewrite demo_S4_sin; lra | ].
  pose proof (reflect_mirrored UnitZ rayS4) as Hrefl.
  assert (Hrun : exists c r',
             bounceRefract (trace 1 0) rayS4 tt = Done (c, r', tt)
             /\ insideThings r' = insideThings rayS4
             /\ direction r' = Triplet.mk (sqrt 3 / 2) 0 (3/2)).
  2: { destruct Hrun as (c & r' & Hrun & Hstack & Hdir). exists c, r'.
       split; [exact Hrun | ]. split; [exact Hstack | ]. split; [exact Hdir | ].
       split; [exact Hrefl | ].
       rewrite Hdir, demo_S4_mirrored. intros E. inversion E. lra. }
  unfold bounceRefract. change (depth rayS4 <? 1)%Z with false. cbv iota.
  unfold russianRoulette.
  assert (Hm : maxColor rayS4 = 1).
  { unfold maxColor, Aux.max. vsimpl. unfold Rmax. repeat destruct (Rle_dec _ _); lra. }
  rewrite Hm. simpl rrLimit. Rdecide. cbv iota beta.
  simpl deref. unfold bind at 1 2. simpl getNormal.
  rewrite demo_S4_refract.
  unfold traceToNextIntersection. simpl depth. change (1 <? 0)%Z with false. cbv iota.
  set (r1 := clearHits _).
  assert (Hg : forall (h : R) (r : Ray),
             origin r = origin r1 -> direction r = direction r1 -> h <= 1 ->
             planeHit h r = 0).
  { intros h r Ho Hd Hh. rewrite (planeHit_value h ((h - 1) * (2/3)) r).
    - rewrite Rltb_false by lra. reflexivity.
    - rewrite Hd. simpl. lra.
    - rewrite Ho, Hd. simpl. lra. }
  assert (Hf : foregroundPass (r1, INF) = (r1, INF)).
  { unfold foregroundPass. simpl.
    repeat (rewrite (Hg _ r1) by (reflexivity || lra); unfold nearer; Rdecide; simpl).
    reflexivity. }
  rewrite Hf.
  assert (Hb : backgroundPass (r1, INF) = (r1, INF)).
  { unfold backgroundPass. simpl.
    repeat (rewrite (Hg _ r1) by (reflexivity || lra); unfold nearer; Rdecide; simpl).
    reflexivity. }
  rewrite Hb. replace (isHit (fst (r1, INF))) with false by reflexivity.
  cbv iota. unfold bind.
  unfold trace, traceBody.
  assert (Hcol : Triplet.eqb Black (color (advance (r1, INF))) = false).
  { unfold Triplet.eqb. vsimpl. Rdecide. reflexivity. }
  rewrite Hcol. simpl.
  eexists. eexists. split; [reflexivity | ]. split; reflexivity.
Qed.

(** Scenario S5: at normal incidence the direction does not change, and
    the glass is pushed on the medium stack. *)
Example refract_S5 :
  refract glass UnitZ rayDown = setInsideThings [glass] rayDown.
Proof.
  unfold refract, mediumIndices, Aux.abs. vsimpl.
  replace (0 * 0 + 0 * 0 + -1 * 1) with (-1) by lra.
  assert (Ha : Rabs (-1) = 1) by (rewrite Rabs_left; lra). rewrite Ha. Rdecide.
  replace (1 - 1 / (3 / 2) * (1 / (3 / 2)) * (1 - 1 * 1)) with 1 by field.
  rewrite sqrt_1. unfold setInsideThings, setDirection, rayDown. simpl.
  f_equal. f_equal; field.
Qed.

(** ** Ties *)

(** C3 fails as stated: the ray [rayUp] strikes the glass and the lamp at
    the same parameter 1, the smallest of the foreground, and the query
    records the glass: the slots of the emitter stay null. *)
Lemma tie_reports_the_thing :
  thingIntersect glass rayUp = 1 /\ lightIntersect lamp rayUp = 1
  /\ exists r',
      traceToNextIntersection rayUp = Done r'
      /\ lightHit r' = None /\ lightPartHit r' = None
      /\ thingHit r' = Some glass /\ thingPartHit r' = Some glass.
Proof.
  split; [apply planeHit_rayUp; (reflexivity || lra) | ].
  split; [apply planeHit_rayUp; (reflexivity || lra) | ].
  eexists. split; [apply demo_query_rayUp | ]. simpl. auto.
Qed.

(** ** The theorems at work on the small scene *)

Lemma demo_maxColor_dim : maxColor rayDim = 1/4.
Proof. unfold maxColor, Aux.max, Rmax; simpl. repeat destruct (Rle_dec _ _); lra. Qed.

Lemma demo_maxColor_fair : maxColor rayFair = 3/4.
Proof. unfold maxColor, Aux.max, Rmax; simpl. repeat destruct (Rle_dec _ _); lra. Qed.

Lemma demo_uniform : uniform tt = 1/2.
Proof. unfold uniform; simpl. reflexivity. Qed.

Lemma demo_roulette_dim : russianRoulette rayDim tt = (true, rayDim, tt).
Proof.
  unfold russianRoulette. rewrite demo_maxColor_dim. simpl. Rdecide. reflexivity.
Qed.

Lemma demo_randInRange : randInRange.
Proof. split; [reflexivity | intros g; simpl; lia]. Qed.

Lemma demo_sample_accepted : forall g : Rand, rejected 0 0 (1/2) = false.
Proof. intros _. unfold rejected. Rdecide. reflexivity. Qed.

Lemma demo_drawSample (g : Rand) : drawSample g = (0, 0, 1/2, g).
Proof.
  unfold drawSample; simpl.
  assert (E : 1 / 2 * 2 - 1 = 0) by lra. rewrite E. reflexivity.
Qed.

Lemma demo_samplerEnds : samplerEnds 1.
Proof.
  intros g. unfold sampleLoop. rewrite demo_drawSample, (demo_sample_accepted g).
  discriminate.
Qed.

Lemma ties_keep_the_thing_witness :
  exists r' s p,
    traceToNextIntersection rayUp = Done r'
    /\ reportsThing r' s p
    /\ In (s, p) (thingCandidates false)
    /\ thingIntersect p rayUp = 1.
Proof.
  destruct demo_geometric as [HT HL].
  destruct (ties_keep_the_thing HT HL) as [Htie _].
  apply (Htie rayUp false (glass, glass) (lamp, lamp) 1).
  - simpl; lia.
  - discriminate.
  - left; reflexivity.
  - left; reflexivity.
  - apply planeHit_rayUp; (reflexivity || lra).
  - apply planeHit_rayUp; (reflexivity || lra).
  - unfold struck; simpl. split; lra.
  - intros c [<- | []] _. unfold thingParam; simpl.
    rewrite planeHit_rayUp by (reflexivity || lra). lra.
  - intros c [<- | []] _. unfold lightParam; simpl.
    rewrite planeHit_rayUp by (reflexivity || lra). lra.
Defined.

Lemma russianRoulette_spec_witness :
  fst (fst (russianRoulette rayDim tt)) = true
  /\ color (snd (fst (russianRoulette rayFair tt)))
     = (color rayFair * (rrLimit / maxColor rayFair))%T.
Proof.
  split.
  - destruct (russianRoulette_spec rayDim tt) as [_ Hdraw].
    destruct Hdraw as [Hkill _].
    + rewrite demo_maxColor_dim. simpl. lra.
    + apply Hkill. rewrite demo_maxColor_dim, demo_uniform. simpl. lra.
  - destruct (russianRoulette_spec rayFair tt) as [_ Hdraw].
    destruct Hdraw as [Hkill Hlive].
    + rewrite demo_maxColor_fair. simpl. lra.
    + apply Hlive. destruct (fst (fst (russianRoulette rayFair tt))); [ | reflexivity].
      exfalso. assert (Hlt : maxColor rayFair < uniform tt * rrLimit)
        by (apply Hkill; reflexivity).
      rewrite demo_maxColor_fair, demo_uniform in Hlt. simpl in Hlt. lra.
Defined.

Lemma russianRoulette_frame_witness :
  rayDim = setColor (color rayDim) rayDim
  /\ (true = true -> rayDim = rayDim)
  /\ (rrLimit <= maxColor rayDim -> rayDim = rayDim /\ tt = tt)
  /\ (color rayDim <> color rayDim ->
      true = false /\ maxColor rayDim < rrLimit
      /\ ~ maxColor rayDim < uniform tt * rrLimit
      /\ color rayDim = (color rayDim * (rrLimit / maxColor rayDim))%T).
Proof. exact (russianRoulette_frame rayDim rayDim tt tt true demo_roulette_dim). Defined.

Lemma refract_snell_witness :
  unitLength (direction (refract glass UnitZ rayInto))
  /\ mediumN1 glass rayInto * sinBetween (direction rayInto) UnitZ
     = mediumN2 glass rayInto * sinBetween (direction (refract glass UnitZ rayInto)) UnitZ.
Proof.
  apply refract_snell.
  - exact demo_indices_positive.
  - apply length_one. vsimpl. lra.
  - exact unitLength_UnitZ.
  - unfold sinTheta2Squared, mediumN1, mediumN2, mediumIndices, Aux.abs. vsimpl.
    replace (3 / 5 * 0 + 0 * 0 + -4 / 5 * 1) with (- (4/5)) by lra.
    rewrite Rabs_Ropp, Rabs_right by lra. lra.
Defined.

Lemma foreground_shadows_background_witness :
  exists r' t,
    traceToNextIntersection rayUp = Done r'
    /\ r' = advance (foregroundPass (clearHits rayUp, INF))
    /\ origin r' = pointAt rayUp t
    /\ 0 < t
    /\ ((exists s p, reportsThing r' s p /\ In s things
                     /\ thingIsBackground s = false /\ In p (thingParts s)
                     /\ thingIntersect p rayUp = t)
        \/ (exists l p, reportsLight r' l p /\ In l lights
                        /\ lightIsBackground l = false /\ In p (lightParts l)
                        /\ lightIntersect p rayUp = t))
    /\ (forall s p, In s things -> thingIsBackground s = false -> In p (thingParts s) ->
                    0 < thingIntersect p rayUp -> t <= thingIntersect p rayUp)
    /\ (forall l p, In l lights -> lightIsBackground l = false -> In p (lightParts l) ->
                    0 < lightIntersect p rayUp -> t <= lightIntersect p rayUp).
Proof.
  apply foreground_shadows_background.
  - exact (proj1 demo_geometric).
  - exact (proj2 demo_geometric).
  - exact (proj1 demo_nonNegative).
  - exact (proj2 demo_nonNegative).
  - simpl; lia.
  - exact demo_rayUp_struck.
Defined.

Lemma traceToNextIntersection_slots_witness :
  exists r',
    traceToNextIntersection rayUp = Done r'
    /\ (lightHit r' = None \/ thingHit r' = None)
    /\ slotsPaired r'
    /\ ((lightHit r' = None /\ thingHit r' = None)
        <-> ~ (anyStruck false rayUp \/ anyStruck true rayUp)).
Proof.
  eexists. split; [exact demo_query_rayUp | ].
  exact (traceToNextIntersection_slots rayUp _ (proj1 demo_geometric)
           (proj2 demo_geometric) demo_query_rayUp).
Defined.

Lemma random_hemisphere_witness :
  exists d g',
    random 1 UnitZ tt = Some (d, g') /\ unitLength d /\ 0 <= Triplet.dot d UnitZ.
Proof.
  destruct (@random_hemisphere handles scene UnitZ tt demo_randInRange unitLength_UnitZ)
    as [_ Hends].
  apply (Hends 0%nat). unfold acceptedAt. rewrite demo_drawSample.
  exact (demo_sample_accepted tt).
Defined.

(** ** The further properties at work on the small scene *)

Lemma demo_sin_rayInto : sinTheta2Squared glass UnitZ rayInto = 4/25.
Proof.
  unfold sinTheta2Squared, mediumN1, mediumN2, mediumIndices, Aux.abs. vsimpl.
  replace (3 / 5 * 0 + 0 * 0 + -4 / 5 * 1) with (- (4/5)) by lra.
  rewrite Rabs_Ropp, Rabs_right by lra. field.
Qed.

Lemma demo_sin_rayLeaving : sinTheta2Squared glass UnitZ rayLeaving = 0.
Proof.
  unfold sinTheta2Squared, mediumN1, mediumN2, mediumIndices, Aux.abs. vsimpl.
  replace (0 * 0 + 0 * 0 + 1 * 1) with 1 by lra.
  rewrite Rabs_R1. field.
Qed.

Lemma reflect_law_witness :
  Triplet.length (direction (reflect UnitZ rayS4)) = Triplet.length (direction rayS4)
  /\ Triplet.dot (direction (reflect UnitZ rayS4)) UnitZ
     = - Triplet.dot (direction rayS4) UnitZ
  /\ reflect UnitZ (reflect UnitZ rayS4) = rayS4.
Proof. exact (reflect_law UnitZ rayS4 unitLength_UnitZ). Defined.

Lemma schlick_range_witness :
  0 <= schlick 1 (3/2) 1
  /\ schlick 1 (3/2) 1 <= schlick 1 (3/2) (1/2)
  /\ schlick 1 (3/2) (1/2) <= 1.
Proof. apply schlick_range; lra. Defined.

Lemma refract_into_denser_witness :
  sinTheta2Squared glass UnitZ rayInto <= 1
  /\ insideThings (refract glass UnitZ rayInto)
     = if entering glass rayInto then glass :: insideThings rayInto
       else tl (insideThings rayInto).
Proof.
  apply refract_into_denser. unfold mediumN1, mediumN2, mediumIndices; simpl. lra.
Defined.

Lemma refract_enter_leave_witness :
  entering glass rayLeaving = false
  /\ mediumN1 glass rayLeaving = mediumN2 glass rayInto
  /\ mediumN2 glass rayLeaving = mediumN1 glass rayInto
  /\ insideThings (refract glass UnitZ rayLeaving) = insideThings rayInto.
Proof.
  apply (refract_enter_leave glass UnitZ UnitZ rayInto rayLeaving).
  - reflexivity.
  - rewrite demo_sin_rayInto. lra.
  - rewrite refract_stack by (rewrite demo_sin_rayInto; lra). reflexivity.
  - rewrite demo_sin_rayLeaving. lra.
Defined.

Lemma refract_equal_indices_witness :
  sinTheta2Squared backdrop UnitZ rayInto <= 1
  /\ direction (refract backdrop UnitZ rayInto) = direction rayInto.
Proof.
  apply refract_equal_indices.
  - reflexivity.
  - unfold mediumN2, mediumIndices; simpl. lra.
Defined.

Lemma refract_normal_incidence_witness :
  sinTheta2Squared glass UnitZ rayLeaving <= 1
  /\ direction (refract glass UnitZ rayLeaving) = direction rayLeaving.
Proof.
  apply refract_normal_incidence.
  - exact unitLength_UnitZ.
  - left. reflexivity.
Defined.

Lemma refract_keeps_side_witness :
  Triplet.dot (direction (refract glass UnitZ rayInto)) UnitZ
  = (if Rltb (Triplet.dot (direction rayInto) UnitZ) 0 then -1 else 1)
    * sqrt (1 - sinTheta2Squared glass UnitZ rayInto).
Proof.
  apply refract_keeps_side.
  - exact unitLength_UnitZ.
  - rewrite demo_sin_rayInto. lra.
Defined.

Lemma query_frame_witness :
  direction (setOrigin (Triplet.mk 0 0 1) (foundThing glass glass rayUp)) = direction rayUp
  /\ color (setOrigin (Triplet.mk 0 0 1) (foundThing glass glass rayUp)) = color rayUp
  /\ depth (setOrigin (Triplet.mk 0 0 1) (foundThing glass glass rayUp)) = depth rayUp
  /\ insideThings (setOrigin (Triplet.mk 0 0 1) (foundThing glass glass rayUp))
     = insideThings rayUp
  /\ forall r2, sameButHits r2 rayUp ->
                traceToNextIntersection r2
                = Done (setOrigin (Triplet.mk 0 0 1) (foundThing glass glass rayUp)).
Proof. exact (query_frame rayUp _ demo_query_rayUp). Defined.

(** From above the planes, or between them pointing down, a plane that
    is not below the origin is missed. *)
Lemma planeHit_behind (h t : R) (r : Ray) :
  Triplet.z (direction r) <> 0 ->
  h - Triplet.z (origin r) = t * Triplet.z (direction r) -> t <= 0 ->
  planeHit h r = 0.
Proof.
  intros Hz Ht Hneg. rewrite (planeHit_value h t r Hz Ht).
  rewrite Rltb_false by exact Hneg. reflexivity.
Qed.

Lemma demo_rayAway_misses (h : R) : h <= 1 -> planeHit h rayAway = 0.
Proof.
  intros Hh. apply (planeHit_behind h (h - 2)); simpl; lra.
Qed.

Lemma demo_rayAway_unstruck (background : bool) : ~ anyStruck background rayAway.
Proof.
  intros [(c & Hin & [Hs _]) | (c & Hin & [Hs _])]; apply Hs; clear Hs.
  - destruct background; simpl in Hin; destruct Hin as [<- | []]; simpl;
      apply demo_rayAway_misses; lra.
  - destruct background; simpl in Hin; [contradiction | ].
    destruct Hin as [<- | []]; simpl. apply demo_rayAway_misses; lra.
Qed.

Lemma query_total_miss_witness :
  traceToNextIntersection rayAway
  = Done (setOrigin (pointAt rayAway INF) (clearHits rayAway)).
Proof.
  apply query_total_miss.
  - exact (proj1 demo_geometric).
  - exact (proj2 demo_geometric).
  - simpl; lia.
  - apply demo_rayAway_unstruck.
  - apply demo_rayAway_unstruck.
Defined.

Lemma demo_rayBack_misses : planeHit 1 rayBack = 0.
Proof. apply (planeHit_behind 1 (-1/4)); simpl; lra. Qed.

Lemma demo_rayBack_backdrop : planeHit (1/2) rayBack = 1/4.
Proof.
  rewrite (planeHit_value (1/2) (1/4)) by (simpl; lra).
  rewrite Rltb_true by lra. reflexivity.
Qed.

Lemma background_when_foreground_misses_witness :
  exists r' t,
    traceToNextIntersection rayBack = Done r'
    /\ origin r' = pointAt rayBack t
    /\ 0 < t
    /\ ((exists s p, reportsThing r' s p /\ In s things
                     /\ thingIsBackground s = true /\ In p (thingParts s)
                     /\ thingIntersect p rayBack = t)
        \/ (exists l p, reportsLight r' l p /\ In l lights
                        /\ lightIsBackground l = true /\ In p (lightParts l)
                        /\ lightIntersect p rayBack = t))
    /\ (forall s p, In s things -> thingIsBackground s = true -> In p (thingParts s) ->
                    0 < thingIntersect p rayBack -> t <= thingIntersect p rayBack)
    /\ (forall l p, In l lights -> lightIsBackground l = true -> In p (lightParts l) ->
                    0 < lightIntersect p rayBack -> t <= lightIntersect p rayBack).
Proof.
  apply background_when_foreground_misses.
  - exact (proj1 demo_geometric).
  - exact (proj2 demo_geometric).
  - exact (proj1 demo_nonNegative).
  - exact (proj2 demo_nonNegative).
  - simpl; lia.
  - intros [(c & Hin & [Hs _]) | (c & Hin & [Hs _])]; apply Hs; clear Hs;
      simpl in Hin; destruct Hin as [<- | []]; simpl; exact demo_rayBack_misses.
  - left. exists (backdrop, backdrop). split; [left; reflexivity | ].
    simpl. rewrite demo_rayBack_backdrop. unfold struck; simpl. lra.
Defined.

Lemma demo_sampleLoop : sampleLoop 1 (tt : Rand) = Some (0, 0, 1/2, tt).
Proof.
  unfold sampleLoop. rewrite demo_drawSample, (demo_sample_accepted tt). reflexivity.
Qed.

Lemma random_cosine_witness :
  0 < 0 * 0 + 0 * 0 + 1/2 * (1/2) <= 1
  /\ 0 <= 1/2 <= 1
  /\ exists d, random 1 UnitZ (tt : Rand) = Some (d, tt)
               /\ Triplet.dot d UnitZ = 1/2 / sqrt (0 * 0 + 0 * 0 + 1/2 * (1/2)).
Proof.
  exact (@random_cosine handles scene 1%nat UnitZ tt tt 0 0 (1/2)
           demo_randInRange unitLength_UnitZ demo_sampleLoop).
Defined.

Lemma demo_roulette_fair : fst (fst (russianRoulette rayFair tt)) = false.
Proof.
  unfold russianRoulette. rewrite demo_maxColor_fair. simpl. Rdecide. reflexivity.
Qed.

Lemma russianRoulette_survivor_witness :
  maxColor (snd (fst (russianRoulette rayFair tt))) = Rmax (maxColor rayFair) rrLimit.
Proof.
  apply russianRoulette_survivor.
  - rewrite demo_maxColor_fair. lra.
  - exact demo_roulette_fair.
Defined.

Lemma matte_samplerEnds : @samplerEnds handles matteScene 1.
Proof.
  intros g. unfold sampleLoop.
  assert (E : @drawSample handles matteScene g = (0, 0, 1/2, g)).
  { unfold drawSample; simpl.
    assert (E : 1 / 2 * 2 - 1 = 0) by lra. rewrite E. reflexivity. }
  rewrite E. unfold rejected. Rdecide. discriminate.
Qed.

Lemma demo_query_rayAway :
  traceToNextIntersection rayAway
  = Done (setOrigin (pointAt rayAway INF) (clearHits rayAway)).
Proof.
  unfold traceToNextIntersection. change (depth rayAway <? 0)%Z with false. cbv iota.
  assert (Hg : forall (h : R) (r : Ray),
             origin r = origin rayAway -> direction r = direction rayAway -> h <= 1 ->
             planeHit h r = 0).
  { intros h r Ho Hd Hh. rewrite <- (demo_rayAway_misses h Hh).
    apply planeHit_geometric; assumption. }
  assert (Hf : foregroundPass (clearHits rayAway, INF) = (clearHits rayAway, INF)).
  { unfold foregroundPass. simpl.
    repeat (rewrite (Hg _ (clearHits rayAway)) by (reflexivity || lra);
            unfold nearer; Rdecide; simpl).
    reflexivity. }
  rewrite Hf.
  assert (Hb : backgroundPass (clearHits rayAway, INF) = (clearHits rayAway, INF)).
  { unfold backgroundPass. simpl.
    repeat (rewrite (Hg _ (clearHits rayAway)) by (reflexivity || lra);
            unfold nearer; Rdecide; simpl).
    reflexivity. }
  rewrite Hb. reflexivity.
Qed.

Lemma demo_white_not_black : White <> Black.
Proof. intros E. inversion E. lra. Qed.

Lemma trace_ends_after_query_witness :
  trace 1 0 (setOrigin (pointAt rayAway INF) (clearHits rayAway)) tt
  = Done (Triplet.tint (color rayAway) sky,
          paint sky (setOrigin (pointAt rayAway INF) (clearHits rayAway)), tt).
Proof.
  destruct (@trace_ends_after_query handles scene 1%nat 0%nat rayAway _ tt
              demo_query_rayAway demo_white_not_black) as [_ Hsky].
  apply Hsky; reflexivity.
Defined.

Lemma trace_last_bounce_witness :
  exists r',
    depth r' = (-1)%Z /\ trace 1 0 rayLast tt = Done (Black, r', tt).
Proof.
  exact (@trace_last_bounce handles scene 1%nat 0%nat rayLast tt tt glass glass REFRACT
           demo_white_not_black eq_refl eq_refl eq_refl eq_refl eq_refl).
Defined.

(** ** Paths that bounce *)

(** The ray [rayInto] has the glass recorded: [trace] paints it, takes one
    unit of depth, refracts it into the glass and calls itself, so a budget
    of no recursive call is used up. *)
Lemma demo_rayInto_recurses : trace 1 0 rayInto tt = OutOfCalls.
Proof.
  rewrite trace_unfold. unfold traceBody.
  rewrite Triplet_eqb_false by (intros E; inversion E; lra).
  change (depth rayInto <? 0)%Z with false. cbn [orb].
  change (lightHit rayInto) with (@None Light).
  change (thingHit rayInto) with (Some glass). cbv iota.
  set (r1 := setDepth _ _).
  change (interact glass tt) with (REFRACT, (tt : Rand)). cbv iota.
  unfold bounceRefract. change (depth r1 <? 1)%Z with false. cbv iota.
  assert (Hm : maxColor r1 = 1).
  { unfold maxColor, Aux.max. vsimpl. unfold Rmax. repeat destruct (Rle_dec _ _); lra. }
  unfold russianRoulette. rewrite Hm. simpl rrLimit. Rdecide. cbv iota.
  change (thingHit r1) with (Some glass).
  change (thingPartHit r1) with (Some glass). cbn [deref bind].
  match goal with
  | |- context [traceToNextIntersection ?r2] =>
      destruct (query_succeeds r2) as (r3 & Hq & _);
      [rewrite refract_depth; simpl; lia | rewrite Hq; reflexivity]
  end.
Qed.

Lemma trace_depth_bounded_witness :
  trace 1 0 rayInto tt = OutOfCalls
  /\ exists c r' g',
      trace 1 (Z.to_nat (depth rayInto)) rayInto tt = Done (c, r', g')
      /\ (depth r' < depth rayInto)%Z.
Proof.
  split; [exact demo_rayInto_recurses | ].
  destruct (@trace_depth_bounded handles scene 1%nat rayInto tt) as (_ & _ & Hdone).
  destruct Hdone as [[[c r'] g'] E].
  - intros _. simpl. discriminate.
  - exact demo_samplerEnds.
  - exists c, r', g'. split; [exact E | ].
    assert (Hcost : (depth r' <= depth rayInto - 1)%Z).
    { apply (@trace_bounce_costs handles scene 1%nat (Z.to_nat (depth rayInto)) rayInto r'
               tt g' c glass);
        [exact demo_white_not_black | simpl; lia | reflexivity | reflexivity | exact E]. }
    lia.
Defined.

Lemma trace_depth_range_witness :
  exists c r' g',
    trace 1 5 rayInto tt = Done (c, r', g')
    /\ (depth r' < depth rayInto)%Z
    /\ (depth r' <= depth rayInto)%Z /\ ((-1 <= depth rayInto)%Z -> (-1 <= depth r')%Z).
Proof.
  destruct (@trace_within_budget handles scene 1%nat 5%nat rayInto tt) as [_ Hdone].
  { simpl; lia. }
  destruct Hdone as [[[c r'] g'] E].
  - intros _. simpl. discriminate.
  - exact demo_samplerEnds.
  - exists c, r', g'. split; [exact E | ]. split.
    + assert (Hcost : (depth r' <= depth rayInto - 1)%Z).
      { apply (@trace_bounce_costs handles scene 1%nat 5%nat rayInto r' tt g' c glass);
          [exact demo_white_not_black | simpl; lia | reflexivity | reflexivity | exact E]. }
      lia.
    + exact (trace_depth_range 1 5 rayInto r' tt g' c E).
Defined.

(** In the matte scene the glass scatters the ray [rayLeaving], which has
    the glass on its medium stack. *)
Lemma trace_keeps_stack_witness :
  exists c r' g',
    @trace handles matteScene 1 5 rayLeaving tt = Done (c, r', g')
    /\ (depth r' < depth rayLeaving)%Z
    /\ insideThings r' = [glass].
Proof.
  destruct (@trace_within_budget handles matteScene 1%nat 5%nat rayLeaving tt)
    as [_ Hdone].
  { simpl; lia. }
  destruct Hdone as [[[c r'] g'] E].
  - intros _. simpl. discriminate.
  - exact matte_samplerEnds.
  - exists c, r', g'. split; [exact E | ]. split.
    + assert (Hcost : (depth r' <= depth rayLeaving - 1)%Z).
      { apply (@trace_bounce_costs handles matteScene 1%nat 5%nat rayLeaving r' tt g' c
                 glass);
          [exact demo_white_not_black | simpl; lia | reflexivity | reflexivity | exact E]. }
      lia.
    + apply (@trace_keeps_stack handles matteScene 1%nat 5%nat rayLeaving r' tt g' c);
        [ | exact E].
      intros thing g. discriminate.
Defined.

(** ** A tie among three things *)

Lemma twin_geometric :
  @geometric handles ThingPart (@thingIntersect handles twinScene)
  /\ @geometric handles LightPart (@lightIntersect handles twinScene).
Proof. split; intros p r1 r2 Ho Hd; apply planeHit_geometric; assumption. Qed.

(** From the origin, straight up, in the scene of the three things: the
    pane, visited first, is struck at 2; the glass, the backdrop and the
    lamp are all struck at 1; the query records the glass. *)
Lemma first_thing_wins_witness :
  @thingCandidates handles twinScene false
  = [(pane, pane)] ++ (glass, glass) :: [(backdrop, backdrop)]
  /\ @thingIntersect handles twinScene pane rayUp = 2
  /\ @thingIntersect handles twinScene glass rayUp = 1
  /\ @thingIntersect handles twinScene backdrop rayUp = 1
  /\ @lightIntersect handles twinScene lamp rayUp = 1
  /\ exists r',
      @traceToNextIntersection handles twinScene rayUp = Done r'
      /\ reportsThing r' glass glass
      /\ origin r' = @pointAt handles rayUp (@thingIntersect handles twinScene glass rayUp).
Proof.
  assert (Hpane : @thingIntersect handles twinScene pane rayUp = 2)
    by (apply planeHit_rayUp; (reflexivity || lra)).
  assert (Hone : planeHit 1 rayUp = 1)
    by (apply planeHit_rayUp; (reflexivity || lra)).
  split; [reflexivity | ]. split; [exact Hpane | ].
  split; [exact Hone | ]. split; [exact Hone | ]. split; [exact Hone | ].
  apply (@first_thing_wins handles twinScene rayUp false
           [(pane, pane)] [(backdrop, backdrop)] glass glass).
  - exact (proj1 twin_geometric).
  - exact (proj2 twin_geometric).
  - simpl; lia.
  - discriminate.
  - reflexivity.
  - change (struck (planeHit 1 rayUp)). rewrite Hone. unfold struck; simpl. lra.
  - intros c [<- | []] _. unfold thingParam.
    change (planeHit 1 rayUp < planeHit 2 rayUp).
    rewrite Hone, (planeHit_rayUp 2) by (reflexivity || lra). lra.
  - intros c [<- | []] _. unfold thingParam.
    change (planeHit 1 rayUp <= planeHit 1 rayUp). lra.
  - intros c [<- | []] _. unfold lightParam.
    change (planeHit 1 rayUp <= planeHit 1 rayUp). lra.
Defined.
